(** * Fragment executor of the pipeline engine (be/src/exec/pipeline/fragment_executor.cpp)

    A shallow embedding of [FragmentExecutor]: the expire-second
    computation, the scan-node loop of [_prepare_exec_plan] (query cache,
    cache-key prefixes, shared scan, morsel queue factories), the scan-limit
    heuristic, the adaptive-group bookkeeping of [_prepare_pipeline_driver],
    and the [prepare] / [execute] / [_fail_cleanup] protocol over an
    explicit environment state. *)

From Stdlib Require Import ZArith Lia List String Ascii Bool.
From stdpp Require Import base gmap strings list.

Import ListNotations.
Open Scope Z_scope.

(** ** Status *)

(** The error kinds carried by [Status] that the executor produces or
    passes through. *)
Inductive ErrorKind :=
  | DuplicateRpcInvocation
  | ResourceExhausted
  | Cancelled
  | InvalidPlan
  | InternalError.

#[global] Instance ErrorKind_eq_dec : EqDecision ErrorKind.
Proof. solve_decision. Defined.

(** [Status] / [StatusOr<T>]. *)
Inductive result (A : Type) :=
  | Ok (a : A)
  | Err (e : ErrorKind).
Arguments Ok {A} a.
Arguments Err {A} e.

Definition bind_result {A B} (m : result A) (k : A -> result B) : result B :=
  match m with Ok a => k a | Err e => Err e end.

(** Thrift optional fields: [__isset.f ? Some f : None]. *)
Definition isset {A} (o : option A) : bool :=
  match o with Some _ => true | None => false end.

(** ** Expire seconds (lines 304-329) *)

Module Expire.

(** The query options read by the expire computation. *)
Record TQueryOptions := {
  query_timeout : option Z;
  query_delivery_timeout : option Z
}.

Section ExpireSeconds.

(** [QueryContext::DEFAULT_EXPIRE_SECONDS], a constant of query_context.h. *)
Variable DEFAULT_EXPIRE_SECONDS : Z.

Definition _calc_delivery_expired_seconds (qo : TQueryOptions) : Z :=
  let expired_seconds :=
    match query_delivery_timeout qo with
    | Some qdt =>
        match query_timeout qo with
        | Some qt => Z.min qt qdt
        | None => qdt
        end
    | None =>
        match query_timeout qo with
        | Some qt => qt
        | None => DEFAULT_EXPIRE_SECONDS
        end
    end in
  Z.max 1 expired_seconds.

Definition _calc_query_expired_seconds (qo : TQueryOptions) : Z :=
  match query_timeout qo with
  | Some qt => Z.max 1 qt
  | None => DEFAULT_EXPIRE_SECONDS
  end.

End ExpireSeconds.

End Expire.

(** ** Scan nodes of [_prepare_exec_plan] (lines 341-447) *)

Module ScanPlan.

Record TInternalScanRange := {
  tablet_id : Z;
  partition_id : Z
}.

(** [TScanRange]: only [internal_scan_range] is read by the loop. *)
Record TScanRange := {
  internal_scan_range : option TInternalScanRange
}.

Record TScanRangeParams := {
  scan_range : TScanRange
}.

(** [std::map<int32_t, std::vector<TScanRangeParams>>], iterated in key
    order; kept as the association list of its entries in that order. *)
Abbreviation PerDriverScanRangesMap := (list (Z * list TScanRangeParams)).

(** gutil's [FindWithDefault] on a [std::map] held as its entry list. *)
Fixpoint FindWithDefault {V} (m : list (Z * V)) (k : Z) (d : V) : V :=
  match m with
  | [] => d
  | (k', v) :: m' => if Z.eqb k k' then v else FindWithDefault m' k d
  end.

(** [std::map::count] on the same representation. *)
Definition map_count {V} (m : list (Z * V)) (k : Z) : bool :=
  existsb (fun kv => Z.eqb k (fst kv)) m.

Inductive TTabletInternalParallelMode := AUTO | FORCE_SPLIT.

(** The thrift [TCacheParam] fields the executor reads. *)
Record TCacheParam := {
  tc_id : Z;
  tc_digest : string;
  tc_cached_plan_node_ids : option (list Z);
  tc_region_map : list (Z * string)
}.

(** The parts of [UnifiedExecPlanFragmentParams] used by the scan loop. *)
Record UnifiedExecPlanFragmentParams := {
  per_node_scan_ranges : list (Z * list TScanRangeParams);
  node_to_per_driver_seq_scan_ranges : option (list (Z * PerDriverScanRangesMap));
  common_enable_shared_scan : option bool;
  fragment_cache_param : option TCacheParam;
  enable_tablet_internal_parallel_opt : option bool;
  tablet_internal_parallel_mode_opt : option TTabletInternalParallelMode
}.

Definition scan_ranges_of_node (req : UnifiedExecPlanFragmentParams) (node_id : Z)
  : list TScanRangeParams :=
  FindWithDefault (per_node_scan_ranges req) node_id [].

Definition per_driver_seq_scan_ranges_of_node (req : UnifiedExecPlanFragmentParams)
    (node_id : Z) : PerDriverScanRangesMap :=
  match node_to_per_driver_seq_scan_ranges req with
  | None => []
  | Some m => FindWithDefault m node_id []
  end.

(** The fragment's [CacheParam]. *)
Record CacheParam := {
  plan_node_id : Z;
  digest : string;
  cached_plan_node_ids : list Z;
  num_lanes : Z;
  cache_key_prefixes : gmap Z string
}.

Definition default_cache_param : CacheParam :=
  {| plan_node_id := 0; digest := EmptyString; cached_plan_node_ids := [];
     num_lanes := 0; cache_key_prefixes := ∅ |}.

(** A morsel queue factory, as far as the executor looks at it. *)
Record MorselQueueFactory := {
  mqf_node_id : Z;
  is_shared : bool
}.

Record ScanNode := {
  sn_id : Z;
  sn_limit : Z;
  sn_io_tasks_per_scan_operator : Z
}.

(** The bytes of an [int64_t] in memory, [(uint8_t* )&x .. +sizeof(x)],
    on a little-endian target. *)
Definition int64_bytes (x : Z) : string :=
  let byte_at i := ascii_of_N (Z.to_N (Z.land (Z.shiftr x (8 * i)) 255)) in
  String (byte_at 0) (String (byte_at 1) (String (byte_at 2) (String (byte_at 3)
  (String (byte_at 4) (String (byte_at 5) (String (byte_at 6) (String (byte_at 7)
  EmptyString))))))).

(** The body of the inner loop over one scan range (lines 412-430). *)
Definition cache_key_prefix_step (region_map : list (Z * string))
    (prefixes : gmap Z string) (scan_range : TScanRangeParams) : gmap Z string :=
  match internal_scan_range (ScanPlan.scan_range scan_range) with
  | None => prefixes
  | Some internal =>
      let tablet_id := tablet_id internal in
      let partition_id := partition_id internal in
      if negb (map_count region_map partition_id) then prefixes
      else
        let region := FindWithDefault region_map partition_id EmptyString in
        let cache_prefix_key :=
          String.append (int64_bytes partition_id)
            (String.append region (int64_bytes tablet_id)) in
        <[tablet_id := cache_prefix_key]> prefixes
  end.

(** The two nested loops over [scan_ranges_per_driver_seq] (lines 410-432). *)
Definition compute_cache_key_prefixes (region_map : list (Z * string))
    (per_driver : PerDriverScanRangesMap) (prefixes : gmap Z string) : gmap Z string :=
  fold_left (fun acc ds =>
               fold_left (cache_key_prefix_step region_map) (snd ds) acc)
            per_driver prefixes.

(** The key [cache_key_prefix_step] stores for the tablet of an internal
    scan range. *)
Definition prefix_value (rm : list (Z * string)) (i : TInternalScanRange) : string :=
  String.append (int64_bytes (partition_id i))
    (String.append (FindWithDefault rm (partition_id i) EmptyString) (int64_bytes (tablet_id i))).

(** The state threaded through the loop over scan nodes: the fragment's
    cache flag and parameters, the local [enable_shared_scan], the morsel
    queue factory map and the calls [scan_node->enable_shared_scan(..)]
    in order. *)
Record LoopState := {
  enable_cache : bool;
  cache_param : CacheParam;
  enable_shared_scan : bool;
  morsel_queue_factories : list (Z * MorselQueueFactory);
  shared_scan_calls : list (Z * bool)
}.

(** [std::unordered_map::emplace]: does nothing when the key is present. *)
Definition emplace {V} (m : list (Z * V)) (k : Z) (v : V) : list (Z * V) :=
  if map_count m k then m else m ++ [(k, v)].

Section Loop.

(** [config::query_cache_num_lanes_per_driver]. *)
Variable query_cache_num_lanes_per_driver : Z.
(** [_calc_dop(exec_env, request)]. *)
Variable dop : Z.
(** [ScanNode::convert_scan_range_to_morsel_queue_factory], virtual per
    scan node. *)
Variable convert_scan_range_to_morsel_queue_factory :
  ScanNode -> list TScanRangeParams -> PerDriverScanRangesMap -> Z -> Z -> bool ->
  TTabletInternalParallelMode -> result MorselQueueFactory.

Definition enable_tablet_internal_parallel (req : UnifiedExecPlanFragmentParams) : bool :=
  match enable_tablet_internal_parallel_opt req with Some b => b | None => false end.

Definition tablet_internal_parallel_mode (req : UnifiedExecPlanFragmentParams)
  : TTabletInternalParallelMode :=
  match tablet_internal_parallel_mode_opt req with Some m => m | None => AUTO end.

Definition factory_of_node (req : UnifiedExecPlanFragmentParams) (sn : ScanNode)
  : result MorselQueueFactory :=
  convert_scan_range_to_morsel_queue_factory sn
    (scan_ranges_of_node req (sn_id sn))
    (per_driver_seq_scan_ranges_of_node req (sn_id sn)) (sn_id sn) dop
    (enable_tablet_internal_parallel req) (tablet_internal_parallel_mode req).

(** One iteration of the loop over [scan_nodes] (lines 396-446). *)
Definition scan_node_step (req : UnifiedExecPlanFragmentParams) (st : LoopState)
    (sn : ScanNode) : result LoopState :=
  let scan_ranges_per_driver_seq := per_driver_seq_scan_ranges_of_node req (sn_id sn) in
  let cp0 := cache_param st in
  let cp1 := {| plan_node_id := plan_node_id cp0; digest := digest cp0;
                cached_plan_node_ids := cached_plan_node_ids cp0;
                num_lanes := Z.min 16 (Z.max 1 query_cache_num_lanes_per_driver);
                cache_key_prefixes := cache_key_prefixes cp0 |} in
  let ec := match scan_ranges_per_driver_seq with
            | [] => false
            | _ => enable_cache st
            end in
  let should_compute_cache_key_prefix :=
    ec && existsb (Z.eqb (sn_id sn)) (cached_plan_node_ids cp1) in
  let region_map := match fragment_cache_param req with
                    | Some t => tc_region_map t
                    | None => []
                    end in
  let cp2 := if should_compute_cache_key_prefix then
               {| plan_node_id := plan_node_id cp1; digest := digest cp1;
                  cached_plan_node_ids := cached_plan_node_ids cp1;
                  num_lanes := num_lanes cp1;
                  cache_key_prefixes :=
                    compute_cache_key_prefixes region_map scan_ranges_per_driver_seq
                      (cache_key_prefixes cp1) |}
             else cp1 in
  let ess := if ec then false else enable_shared_scan st in
  match factory_of_node req sn with
  | Err e => Err e
  | Ok morsel_queue_factory =>
      Ok {| enable_cache := ec;
            cache_param := cp2;
            enable_shared_scan := ess;
            morsel_queue_factories :=
              emplace (morsel_queue_factories st) (sn_id sn) morsel_queue_factory;
            shared_scan_calls :=
              shared_scan_calls st ++ [(sn_id sn, ess && is_shared morsel_queue_factory)] |}
  end.

Fixpoint scan_loop (req : UnifiedExecPlanFragmentParams) (st : LoopState)
    (nodes : list ScanNode) : result LoopState :=
  match nodes with
  | [] => Ok st
  | sn :: rest =>
      match scan_node_step req st sn with
      | Err e => Err e
      | Ok st' => scan_loop req st' rest
      end
  end.

(** The state on entry to the loop: [enable_shared_scan] from the request
    (line 341) and the cache parameters of lines 374-393, installed unless
    spill is enabled. *)
Definition initial_loop_state (req : UnifiedExecPlanFragmentParams) (enable_spill : bool)
  : LoopState :=
  let ess := match common_enable_shared_scan req with Some b => b | None => false end in
  match fragment_cache_param req with
  | Some tcache_param =>
      if negb enable_spill then
        {| enable_cache := true;
           cache_param :=
             {| plan_node_id := tc_id tcache_param; digest := tc_digest tcache_param;
                cached_plan_node_ids :=
                  match tc_cached_plan_node_ids tcache_param with
                  | Some ids => ids
                  | None => []
                  end;
                num_lanes := 0; cache_key_prefixes := ∅ |};
           enable_shared_scan := ess;
           morsel_queue_factories := [];
           shared_scan_calls := [] |}
      else {| enable_cache := false; cache_param := default_cache_param;
              enable_shared_scan := ess; morsel_queue_factories := [];
              shared_scan_calls := [] |}
  | None =>
      {| enable_cache := false; cache_param := default_cache_param;
         enable_shared_scan := ess; morsel_queue_factories := [];
         shared_scan_calls := [] |}
  end.

End Loop.

End ScanPlan.

(** ** Scan limit (lines 449-474) *)

Module ScanLimit.

Import ScanPlan.

(** Signed 64-bit arithmetic. Signed overflow is undefined behaviour in
    C++, so each operation returns [None] when its exact result leaves the
    [int64_t] range; division truncates toward zero ([Z.quot]). *)
Definition INT64_MIN : Z := - 2 ^ 63.
Definition INT64_MAX : Z := 2 ^ 63 - 1.

Definition in_int64 (z : Z) : bool := (INT64_MIN <=? z) && (z <=? INT64_MAX).

Definition checked (z : Z) : option Z := if in_int64 z then Some z else None.

Definition add64 (a b : Z) : option Z := checked (a + b).
Definition sub64 (a b : Z) : option Z := checked (a - b).
Definition mul64 (a b : Z) : option Z := checked (a * b).
Definition div64 (a b : Z) : option Z :=
  if Z.eqb b 0 then None else checked (Z.quot a b).

Notation "x <- m ;; k" := (match m with Some x => k | None => None end)
  (at level 100, m at next level, right associativity).

(** [normalized_limit * dop * scan_node->io_tasks_per_scan_operator()]
    with [normalized_limit = (limit + chunk_size - 1) / chunk_size * chunk_size]
    (lines 459-460). *)
Definition physical_limit_term (chunk_size dop : Z) (sn : ScanNode) : option Z :=
  t1 <- add64 (sn_limit sn) chunk_size ;;
  t2 <- sub64 t1 1 ;;
  q <- div64 t2 chunk_size ;;
  normalized_limit <- mul64 q chunk_size ;;
  p1 <- mul64 normalized_limit dop ;;
  mul64 p1 (sn_io_tasks_per_scan_operator sn).

(** The loop of lines 451-466, returning [(logical_scan_limit, physical_scan_limit)]. *)
Fixpoint scan_limit_loop (chunk_size dop : Z) (nodes : list ScanNode)
    (logical_scan_limit physical_scan_limit : Z) : option (Z * Z) :=
  match nodes with
  | [] => Some (logical_scan_limit, physical_scan_limit)
  | sn :: rest =>
      if 0 <? sn_limit sn then
        logical' <- add64 logical_scan_limit (sn_limit sn) ;;
        term <- physical_limit_term chunk_size dop sn ;;
        physical' <- add64 physical_scan_limit term ;;
        scan_limit_loop chunk_size dop rest logical' physical'
      else Some (-1, physical_scan_limit)
  end.

(** Lines 468-474: the query context's scan limit after the blending with
    the resource group's [big_query_scan_rows_limit]; [scan_limit] is its
    value before. *)
Definition blend_scan_limit (big_query_scan_rows_limit : Z)
    (logical_scan_limit physical_scan_limit : Z) (scan_limit : option Z) : option Z :=
  if 0 <? big_query_scan_rows_limit then
    if (0 <=? logical_scan_limit) && (logical_scan_limit <=? big_query_scan_rows_limit)
    then Some (Z.max big_query_scan_rows_limit physical_scan_limit)
    else Some big_query_scan_rows_limit
  else scan_limit.

(** The whole tail of [_prepare_exec_plan]: [None] when the arithmetic
    overflows, otherwise the logical and physical limits and the query's
    scan limit afterwards. *)
Definition prepare_scan_limit (chunk_size dop big_query_scan_rows_limit : Z)
    (nodes : list ScanNode) (scan_limit : option Z) : option (Z * Z * option Z) :=
  lp <- scan_limit_loop chunk_size dop nodes 0 0 ;;
  Some (fst lp, snd lp, blend_scan_limit big_query_scan_rows_limit (fst lp) (snd lp) scan_limit).

End ScanLimit.

(** ** Adaptive pipeline groups of [_prepare_pipeline_driver] (lines 531-616) *)

Module Adaptive.

Abbreviation OpId := nat.
Abbreviation PipelineId := nat.
Abbreviation EventId := nat.

(** A source operator factory, as seen by the executor; [group_leader] is
    the pointer to the leader's factory, kept as its id. *)
Record SourceOperatorFactory := {
  sof_id : OpId;
  is_adaptive_group_initial_active : bool;
  group_leader : OpId
}.

Record Driver := {
  driver_pipeline : PipelineId;
  driver_sequence : nat
}.

#[global] Instance Driver_eq_dec : EqDecision Driver.
Proof. solve_decision. Defined.

Record Pipeline := {
  pipeline_id : PipelineId;
  source_operator_factory : SourceOperatorFactory;
  degree_of_parallelism : nat;
  drivers : list Driver
}.

(** Modelled from the spec: [Pipeline::instantiate_drivers] (pipeline.cpp)
    "produces a set of Drivers at instantiation time, one per lane". *)
Definition instantiate_drivers (p : Pipeline) : Pipeline :=
  {| pipeline_id := pipeline_id p;
     source_operator_factory := source_operator_factory p;
     degree_of_parallelism := degree_of_parallelism p;
     drivers := map (fun i => {| driver_pipeline := pipeline_id p; driver_sequence := i |})
                    (seq 0 (degree_of_parallelism p)) |}.

(** [PipelineGroupMap = unordered_map<SourceOperatorFactory*, vector<Pipeline*>>],
    as the list of its entries. *)
Abbreviation PipelineGroupMap := (list (OpId * list PipelineId)).

(** [groups[leader].emplace_back(pipeline)]. *)
Fixpoint group_emplace_back (groups : PipelineGroupMap) (leader : OpId) (p : PipelineId)
  : PipelineGroupMap :=
  match groups with
  | [] => [(leader, [p])]
  | (l, ps) :: rest =>
      if Nat.eqb leader l then (l, ps ++ [p]) :: rest
      else (l, ps) :: group_emplace_back rest leader p
  end.

(** [unready_pipeline_groups.find(leader)]. *)
Fixpoint group_lookup (groups : PipelineGroupMap) (leader : OpId) : option (list PipelineId) :=
  match groups with
  | [] => None
  | (l, ps) :: rest => if Nat.eqb leader l then Some ps else group_lookup rest leader
  end.

(** An event of the adaptive scheduler: the pipelines it initializes when
    it fires and the events it waits for. *)
Record Event := {
  event_pipelines : list PipelineId;
  dependencies : list EventId
}.

Definition add_dependency (ev : Event) (dep : EventId) : Event :=
  {| event_pipelines := event_pipelines ev; dependencies := dependencies ev ++ [dep] |}.

Section Groups.

(** [SourceOperatorFactory::adaptive_blocking_event()] of a leader. *)
Variable adaptive_blocking_event : OpId -> option EventId.
(** [SourceOperatorFactory::group_dependent_pipelines()] of a leader. *)
Variable group_dependent_pipelines : OpId -> list PipelineId.
(** [Pipeline::pipeline_event()]. *)
Variable pipeline_event : PipelineId -> EventId.

(** [Event::create_collect_stats_source_initialize_event] and the
    dependencies added to it (lines 538-546). *)
Definition group_initialize_event (leader_source_op : OpId) (pipelines : list PipelineId)
  : Event :=
  let ev0 := {| event_pipelines := pipelines; dependencies := [] |} in
  let ev1 := match adaptive_blocking_event leader_source_op with
             | Some blocking_event => add_dependency ev0 blocking_event
             | None => ev0
             end in
  fold_left (fun ev dependency_pipeline => add_dependency ev (pipeline_event dependency_pipeline))
            (group_dependent_pipelines leader_source_op) ev1.

(** [create_adaptive_group_initialize_events]: the events set on each
    leader by [set_group_initialize_event], as (leader, event) pairs. *)
Definition create_adaptive_group_initialize_events (unready_pipeline_groups : PipelineGroupMap)
  : list (OpId * Event) :=
  match unready_pipeline_groups with
  | [] => []
  | _ => map (fun lp => (fst lp, group_initialize_event (fst lp) (snd lp)))
             unready_pipeline_groups
  end.

(** One iteration of the loop of lines 603-612. *)
Definition pipeline_step (acc : list Pipeline * PipelineGroupMap) (pipeline : Pipeline)
  : list Pipeline * PipelineGroupMap :=
  let source_op := source_operator_factory pipeline in
  if negb (is_adaptive_group_initial_active source_op) then
    (fst acc ++ [pipeline],
     group_emplace_back (snd acc) (group_leader source_op) (pipeline_id pipeline))
  else (fst acc ++ [instantiate_drivers pipeline], snd acc).

(** Lines 602-616: the pipelines afterwards and the events set on leaders. *)
Definition prepare_adaptive_groups (pipelines : list Pipeline)
  : list Pipeline * list (OpId * Event) :=
  let '(pls, unready_pipeline_groups) := fold_left pipeline_step pipelines ([], []) in
  (pls, match unready_pipeline_groups with
        | [] => []
        | _ => create_adaptive_group_initialize_events unready_pipeline_groups
        end).

End Groups.

End Adaptive.

(** ** [prepare], [execute] and [_fail_cleanup] (lines 110-162, 552-623, 643-806) *)

Module Executor.

Import Adaptive.

(** [TUniqueId] as (hi, lo). *)
Abbreviation TUniqueId := (Z * Z)%type.

Record FragmentContext := {
  fc_query_id : TUniqueId;
  fc_fragment_instance_id : TUniqueId;
  fc_pipelines : list Pipeline;
  fc_driver_token : option Z (* lanes held by the admission token *)
}.

Record QueryContext := {
  fragment_mgr : gmap TUniqueId FragmentContext;
  total_fragments : option Z;
  num_active_fragments : Z;
  delivery_expire_seconds : Z;
  query_expire_seconds : Z;
  delivery_deadline : Z;
  query_deadline : Z;
  is_prepared : bool
}.

(** The calls the executor makes on drivers. *)
Inductive DriverCall :=
  | CallPrepare (d : Driver)
  | CallSubmit (d : Driver).

(** The parts of [ExecEnv] and [GlobalEnv] the executor touches: the query
    context registry, the query pool memory tracker, the driver limiter
    (with the requests it received, in order), the driver calls, and the
    monotonic clock. *)
Record ExecEnv := {
  query_context_mgr : gmap TUniqueId QueryContext;
  query_pool_consumption : Z;
  query_pool_limit : Z;
  num_total_drivers : Z;
  max_num_drivers : Z;
  try_acquire_requests : list Z;
  driver_calls : list DriverCall;
  now : Z
}.

(** The fields [_query_ctx] (as the query id of the shared context) and
    [_fragment_ctx] of a [FragmentExecutor]. *)
Record FragmentExecutor := {
  _query_ctx : option TUniqueId;
  _fragment_ctx : option FragmentContext
}.

Definition new_executor : FragmentExecutor := {| _query_ctx := None; _fragment_ctx := None |}.

Record St := { env : ExecEnv; executor : FragmentExecutor }.

Definition M (A : Type) := St -> result A * St.

Definition ret {A} (a : A) : M A := fun s => (Ok a, s).
Definition fail {A} (e : ErrorKind) : M A := fun s => (Err e, s).
Definition bind {A B} (m : M A) (k : A -> M B) : M B :=
  fun s => match m s with
           | (Ok a, s') => k a s'
           | (Err e, s') => (Err e, s')
           end.
Definition modify (f : St -> St) : M unit := fun s => (Ok tt, f s).
Definition get : M St := fun s => (Ok s, s).

Notation "x <- m ;; k" := (bind m (fun x => k))
  (at level 100, m at next level, right associativity).

(** The request fields read by these functions. *)
Record Request := {
  query_id : TUniqueId;
  fragment_instance_id : TUniqueId;
  instances_number : option Z;
  query_options : Expire.TQueryOptions
}.

Definition set_env (s : St) (e : ExecEnv) : St := {| env := e; executor := executor s |}.
Definition set_executor (s : St) (x : FragmentExecutor) : St := {| env := env s; executor := x |}.

Definition set_query_contexts (e : ExecEnv) (m : gmap TUniqueId QueryContext) : ExecEnv :=
  {| query_context_mgr := m; query_pool_consumption := query_pool_consumption e;
     query_pool_limit := query_pool_limit e; num_total_drivers := num_total_drivers e;
     max_num_drivers := max_num_drivers e; try_acquire_requests := try_acquire_requests e;
     driver_calls := driver_calls e; now := now e |}.

Definition set_num_total_drivers (e : ExecEnv) (n : Z) : ExecEnv :=
  {| query_context_mgr := query_context_mgr e; query_pool_consumption := query_pool_consumption e;
     query_pool_limit := query_pool_limit e; num_total_drivers := n;
     max_num_drivers := max_num_drivers e; try_acquire_requests := try_acquire_requests e;
     driver_calls := driver_calls e; now := now e |}.

Definition log_try_acquire (e : ExecEnv) (n : Z) : ExecEnv :=
  {| query_context_mgr := query_context_mgr e; query_pool_consumption := query_pool_consumption e;
     query_pool_limit := query_pool_limit e; num_total_drivers := num_total_drivers e;
     max_num_drivers := max_num_drivers e; try_acquire_requests := try_acquire_requests e ++ [n];
     driver_calls := driver_calls e; now := now e |}.

Definition set_driver_calls (e : ExecEnv) (l : list DriverCall) : ExecEnv :=
  {| query_context_mgr := query_context_mgr e; query_pool_consumption := query_pool_consumption e;
     query_pool_limit := query_pool_limit e; num_total_drivers := num_total_drivers e;
     max_num_drivers := max_num_drivers e; try_acquire_requests := try_acquire_requests e;
     driver_calls := l; now := now e |}.

(** Updates of a [QueryContext]. *)
Definition qc_with_fragments (qc : QueryContext) (m : gmap TUniqueId FragmentContext) : QueryContext :=
  {| fragment_mgr := m; total_fragments := total_fragments qc;
     num_active_fragments := num_active_fragments qc;
     delivery_expire_seconds := delivery_expire_seconds qc;
     query_expire_seconds := query_expire_seconds qc;
     delivery_deadline := delivery_deadline qc; query_deadline := query_deadline qc;
     is_prepared := is_prepared qc |}.

Definition qc_add_active (qc : QueryContext) (d : Z) : QueryContext :=
  {| fragment_mgr := fragment_mgr qc; total_fragments := total_fragments qc;
     num_active_fragments := num_active_fragments qc + d;
     delivery_expire_seconds := delivery_expire_seconds qc;
     query_expire_seconds := query_expire_seconds qc;
     delivery_deadline := delivery_deadline qc; query_deadline := query_deadline qc;
     is_prepared := is_prepared qc |}.

Definition qc_mark_prepared (qc : QueryContext) : QueryContext :=
  {| fragment_mgr := fragment_mgr qc; total_fragments := total_fragments qc;
     num_active_fragments := num_active_fragments qc;
     delivery_expire_seconds := delivery_expire_seconds qc;
     query_expire_seconds := query_expire_seconds qc;
     delivery_deadline := delivery_deadline qc; query_deadline := query_deadline qc;
     is_prepared := true |}.

(** Modelled from the spec: the query context of a new query ("Created
    lazily on first fragment's prepare call"), with no fragment yet. *)
Definition new_query_context : QueryContext :=
  {| fragment_mgr := ∅; total_fragments := None; num_active_fragments := 0;
     delivery_expire_seconds := 0; query_expire_seconds := 0;
     delivery_deadline := 0; query_deadline := 0; is_prepared := false |}.

(** Modelled from the spec: [QueryContextManager::get_or_register]
    ("idempotent get-or-create"), counting one more live fragment instance
    ("reference-counted by live fragment instances"). *)
Definition get_or_register (m : gmap TUniqueId QueryContext) (qid : TUniqueId) : QueryContext :=
  qc_add_active (match m !! qid with Some qc => qc | None => new_query_context end) 1.

(** Modelled from the spec: [extend_delivery_lifetime] and
    [extend_query_lifetime] set the deadlines to [now + expire] seconds,
    "monotonically extendable, never retracted". *)
Definition extend_lifetimes (now_ns : Z) (qc : QueryContext) : QueryContext :=
  {| fragment_mgr := fragment_mgr qc; total_fragments := total_fragments qc;
     num_active_fragments := num_active_fragments qc;
     delivery_expire_seconds := delivery_expire_seconds qc;
     query_expire_seconds := query_expire_seconds qc;
     delivery_deadline :=
       Z.max (delivery_deadline qc) (now_ns + delivery_expire_seconds qc * 1000000000);
     query_deadline := Z.max (query_deadline qc) (now_ns + query_expire_seconds qc * 1000000000);
     is_prepared := is_prepared qc |}.

Section Prepare.

(** [QueryContext::DEFAULT_EXPIRE_SECONDS]. *)
Variable DEFAULT_EXPIRE_SECONDS : Z.

(** Lines 126-136 on the query context. *)
Definition setup_query_ctx (req : Request) (now_ns : Z) (qc : QueryContext) : QueryContext :=
  let qc1 := match instances_number req with
             | Some n => {| fragment_mgr := fragment_mgr qc; total_fragments := Some n;
                            num_active_fragments := num_active_fragments qc;
                            delivery_expire_seconds := delivery_expire_seconds qc;
                            query_expire_seconds := query_expire_seconds qc;
                            delivery_deadline := delivery_deadline qc;
                            query_deadline := query_deadline qc;
                            is_prepared := is_prepared qc |}
             | None => qc
             end in
  let qc2 := {| fragment_mgr := fragment_mgr qc1; total_fragments := total_fragments qc1;
                num_active_fragments := num_active_fragments qc1;
                delivery_expire_seconds :=
                  Expire._calc_delivery_expired_seconds DEFAULT_EXPIRE_SECONDS (query_options req);
                query_expire_seconds :=
                  Expire._calc_query_expired_seconds DEFAULT_EXPIRE_SECONDS (query_options req);
                delivery_deadline := delivery_deadline qc1;
                query_deadline := query_deadline qc1;
                is_prepared := is_prepared qc1 |} in
  extend_lifetimes now_ns qc2.

(** Lines 118-124: whether [get_or_register] would return a query context
    already holding a fragment context of this fragment instance id. *)
Definition fragment_registered (e : ExecEnv) (qid fid : TUniqueId) : bool :=
  match query_context_mgr e !! qid with
  | Some existing_query_ctx =>
      match fragment_mgr existing_query_ctx !! fid with
      | Some _ => true
      | None => false
      end
  | None => false
  end.

(** [_prepare_query_ctx] (lines 110-162). *)
Definition _prepare_query_ctx (req : Request) : M unit := fun s =>
  let e := env s in
  let duplicate := fragment_registered e (query_id req) (fragment_instance_id req) in
  if duplicate then (Err DuplicateRpcInvocation, s)
  else
    let qc := setup_query_ctx req (now e) (get_or_register (query_context_mgr e) (query_id req)) in
    (Ok tt,
     {| env := set_query_contexts e (<[query_id req := qc]> (query_context_mgr e));
        executor := {| _query_ctx := Some (query_id req);
                       _fragment_ctx := _fragment_ctx (executor s) |} |}).

(** [_prepare_fragment_ctx] (lines 164-185). *)
Definition _prepare_fragment_ctx (req : Request) : M unit :=
  modify (fun s => set_executor s
    {| _query_ctx := _query_ctx (executor s);
       _fragment_ctx := Some {| fc_query_id := query_id req;
                                fc_fragment_instance_id := fragment_instance_id req;
                                fc_pipelines := []; fc_driver_token := None |} |}).

(** Modelled from the spec: [MemTracker::check_mem_limit] of the query
    pool ("memory-limit pre-check failure at process scope", reported as
    [ResourceExhausted]). *)
Definition check_mem_limit : M unit := fun s =>
  if Z.ltb (query_pool_limit (env s)) (query_pool_consumption (env s))
  then (Err ResourceExhausted, s) else (Ok tt, s).

(** Modelled from the spec: [FragmentContext::total_dop], "a known total
    lane count across all pipelines including deferred ones". *)
Definition total_dop (pipelines : list Pipeline) : Z :=
  fold_right (fun p acc => Z.of_nat (degree_of_parallelism p) + acc) 0 pipelines.

(** Modelled from the spec: [DriverLimiter::try_acquire(lane_count)]
    fails with [ResourceExhausted] "when the process-wide concurrency budget
    is exhausted"; otherwise it grants a token of [lane_count] lanes. *)
Definition try_acquire (n : Z) : M Z := fun s =>
  let e := log_try_acquire (env s) n in
  if Z.ltb (max_num_drivers e) (num_total_drivers e + n)
  then (Err ResourceExhausted, set_env s e)
  else (Ok n, set_env s (set_num_total_drivers e (num_total_drivers e + n))).

Definition set_fragment_ctx (fc : FragmentContext) : M unit :=
  modify (fun s => set_executor s {| _query_ctx := _query_ctx (executor s);
                                     _fragment_ctx := Some fc |}).

Definition get_fragment_ctx : M FragmentContext := fun s =>
  match _fragment_ctx (executor s) with
  | Some fc => (Ok fc, s)
  | None => (Err InternalError, s)
  end.

(** The collaborators between the fragment context and the adaptive
    groups: [_prepare_workgroup], [_prepare_runtime_state],
    [_prepare_global_dict], [_prepare_exec_plan] and the pipeline building
    and sink decomposition of [_prepare_pipeline_driver] (lines 553-589),
    with the pipelines they build; then [_prepare_stream_load_pipe]. *)
Variable build_pipelines : Request -> result (list Pipeline).
Variable _prepare_stream_load_pipe : Request -> result unit.
Variable adaptive_blocking_event : OpId -> option EventId.
Variable group_dependent_pipelines : OpId -> list PipelineId.
Variable pipeline_event : PipelineId -> EventId.

Definition lift {A} (r : result A) : M A := fun s => (r, s).

(** Lines 602-622 of [_prepare_pipeline_driver]. *)
Definition _prepare_pipeline_driver (pipelines : list Pipeline) : M unit :=
  fc <- get_fragment_ctx ;;
  let pls := fst (prepare_adaptive_groups adaptive_blocking_event group_dependent_pipelines
                    pipeline_event pipelines) in
  _ <- set_fragment_ctx {| fc_query_id := fc_query_id fc;
                           fc_fragment_instance_id := fc_fragment_instance_id fc;
                           fc_pipelines := pls; fc_driver_token := None |} ;;
  driver_token <- try_acquire (total_dop pls) ;;
  set_fragment_ctx {| fc_query_id := fc_query_id fc;
                      fc_fragment_instance_id := fc_fragment_instance_id fc;
                      fc_pipelines := pls; fc_driver_token := Some driver_token |}.

(** Modelled from the spec: [FragmentContextManager::register_ctx]
    rejects an id already present ("Exactly one instance may exist per
    identity"). *)
Definition register_ctx (fid : TUniqueId) (fc : FragmentContext) : M unit := fun s =>
  match _query_ctx (executor s) with
  | None => (Err InternalError, s)
  | Some qid =>
      match query_context_mgr (env s) !! qid with
      | None => (Err InternalError, s)
      | Some qc =>
          match fragment_mgr qc !! fid with
          | Some _ => (Err InternalError, s)
          | None =>
              let qc' := qc_mark_prepared (qc_with_fragments qc (<[fid := fc]> (fragment_mgr qc))) in
              (Ok tt, set_env s (set_query_contexts (env s)
                                   (<[qid := qc']> (query_context_mgr (env s)))))
          end
      end
  end.

(** The body of [prepare] (lines 705-741); the final [mark_prepared] is
    folded into [register_ctx]'s update. *)
Definition prepare_body (req : Request) : M unit :=
  _ <- check_mem_limit ;;
  _ <- _prepare_query_ctx req ;;
  _ <- _prepare_fragment_ctx req ;;
  pipelines <- lift (build_pipelines req) ;;
  _ <- _prepare_pipeline_driver pipelines ;;
  _ <- lift (_prepare_stream_load_pipe req) ;;
  fc <- get_fragment_ctx ;;
  register_ctx (fragment_instance_id req) fc.

End Prepare.

(** Modelled from the spec: destroying the [FragmentContext] releases its
    admission token ("released automatically when the owning
    FragmentContext is destroyed"). *)
Definition release_token (e : ExecEnv) (fc : FragmentContext) : ExecEnv :=
  match fc_driver_token fc with
  | Some n => set_num_total_drivers e (num_total_drivers e - n)
  | None => e
  end.

(** [_fail_cleanup] (lines 795-806); [count_down_fragments] is modelled
    after the spec's live-fragment count. *)
Definition _fail_cleanup (fragment_has_registed : bool) (s : St) : St :=
  match _query_ctx (executor s) with
  | None => s
  | Some qid =>
      let e := env s in
      let '(e1, fctx) :=
        match _fragment_ctx (executor s) with
        | Some fc =>
            let e0 :=
              if fragment_has_registed then
                match query_context_mgr e !! qid with
                | Some qc =>
                    set_query_contexts e
                      (<[qid := qc_with_fragments qc
                                  (delete (fc_fragment_instance_id fc) (fragment_mgr qc))]>
                         (query_context_mgr e))
                | None => e
                end
              else e in
            (release_token e0 fc, None)
        | None => (e, None)
        end in
      let e2 := match query_context_mgr e1 !! qid with
                | Some qc => set_query_contexts e1
                               (<[qid := qc_add_active qc (-1)]> (query_context_mgr e1))
                | None => e1
                end in
      {| env := e2; executor := {| _query_ctx := Some qid; _fragment_ctx := fctx |} |}
  end.

(** [prepare] (lines 643-742): the body, then the deferred cleanup when it
    failed. *)
Definition prepare DEFAULT_EXPIRE_SECONDS build_pipelines _prepare_stream_load_pipe
    adaptive_blocking_event group_dependent_pipelines pipeline_event
    (req : Request) (s : St) : result unit * St :=
  match prepare_body DEFAULT_EXPIRE_SECONDS build_pipelines _prepare_stream_load_pipe
          adaptive_blocking_event group_dependent_pipelines pipeline_event req s with
  | (Ok tt, s') => (Ok tt, s')
  | (Err e, s') => (Err e, _fail_cleanup false s')
  end.

Section Execute.

(** [PipelineDriver::prepare(runtime_state)]. *)
Variable driver_prepare : Driver -> result unit.

(** [iterate_active_drivers] with the [Status]-returning [driver->prepare]
    (lines 757-785): pipelines whose source is not initially active are
    skipped, the first error stops the iteration. The driver calls made are
    appended to [calls]. *)
Fixpoint prepare_drivers (ds : list Driver) (calls : list DriverCall)
  : result unit * list DriverCall :=
  match ds with
  | [] => (Ok tt, calls)
  | d :: rest =>
      let calls' := calls ++ [CallPrepare d] in
      match driver_prepare d with
      | Ok _ => prepare_drivers rest calls'
      | Err e => (Err e, calls')
      end
  end.

Fixpoint iterate_active_drivers_prepare (pipelines : list Pipeline) (calls : list DriverCall)
  : result unit * list DriverCall :=
  match pipelines with
  | [] => (Ok tt, calls)
  | pipeline :: rest =>
      if negb (is_adaptive_group_initial_active (source_operator_factory pipeline))
      then iterate_active_drivers_prepare rest calls
      else match prepare_drivers (drivers pipeline) calls with
           | (Ok _, calls') => iterate_active_drivers_prepare rest calls'
           | (Err e, calls') => (Err e, calls')
           end
  end.

(** [iterate_active_drivers] with [executor->submit(driver)] (line 790). *)
Fixpoint iterate_active_drivers_submit (pipelines : list Pipeline) (calls : list DriverCall)
  : list DriverCall :=
  match pipelines with
  | [] => calls
  | pipeline :: rest =>
      if negb (is_adaptive_group_initial_active (source_operator_factory pipeline))
      then iterate_active_drivers_submit rest calls
      else iterate_active_drivers_submit rest
             (calls ++ map CallSubmit (drivers pipeline))
  end.

(** [FragmentExecutor::execute] (lines 744-793), on an executor whose
    [prepare] succeeded; the deferred [_fail_cleanup(true)] runs when a
    driver fails to prepare. *)
Definition execute (s : St) : result unit * St :=
  match _fragment_ctx (executor s) with
  | None => (Err InternalError, s)
  | Some fc =>
      match iterate_active_drivers_prepare (fc_pipelines fc) (driver_calls (env s)) with
      | (Err e, calls) => (Err e, _fail_cleanup true (set_env s (set_driver_calls (env s) calls)))
      | (Ok _, calls) =>
          (Ok tt, set_env s (set_driver_calls (env s)
                               (iterate_active_drivers_submit (fc_pipelines fc) calls)))
      end
  end.

End Execute.

End Executor.

(** ** Cache-key bytes read back *)

Module KeyBytes.

Import ScanPlan.

(** The unsigned little-endian value of a byte string: the value that
    [memcpy]ing the bytes back into an unsigned integer of that width
    yields, first byte least significant. *)
Fixpoint decode_le (s : string) : Z :=
  match s with
  | EmptyString => 0
  | String c s' => Z.of_N (N_of_ascii c) + 256 * decode_le s'
  end.

(** The [n] bytes of [x] from byte [i] on, each written as [int64_bytes]
    writes the [i]-th one. *)
Fixpoint le_bytes (n : nat) (x i : Z) : string :=
  match n with
  | O => EmptyString
  | S n' => String (ascii_of_N (Z.to_N (Z.land (Z.shiftr x (8 * i)) 255)))
                   (le_bytes n' x (i + 1))
  end.

End KeyBytes.

(** ** Stream load channels of [_prepare_stream_load_pipe] (lines 479-529) *)

Module StreamLoad.

Abbreviation TUniqueId := (Z * Z)%type.

(** The thrift structs read by the loop. [channel_id] is optional in
    [TBrokerScanRange]. *)
Record TBrokerRangeDesc := {
  format_type : Z;
  load_id : TUniqueId
}.

Record TBrokerScanRangeParams := {
  label : string;
  db_name : string;
  table_name : string;
  txn_id : Z
}.

Record TBrokerScanRange := {
  channel_id : option Z;
  params : TBrokerScanRangeParams;
  ranges : list TBrokerRangeDesc
}.

(** [TScanRange]: only [broker_scan_range] is read here. *)
Record TScanRange := {
  broker_scan_range : option TBrokerScanRange
}.

Record TScanRangeParams := {
  scan_range : TScanRange
}.

(** An unset thrift field reads as its default value: a default-constructed
    [TBrokerScanRange] has a zero [channel_id], empty strings, a zero
    [txn_id] and no [ranges]. *)
Definition default_TBrokerScanRange : TBrokerScanRange :=
  {| channel_id := None;
     params := {| label := EmptyString; db_name := EmptyString;
                  table_name := EmptyString; txn_id := 0 |};
     ranges := [] |}.

Definition read_broker_scan_range (sr : TScanRange) : TBrokerScanRange :=
  match broker_scan_range sr with
  | Some b => b
  | None => default_TBrokerScanRange
  end.

Definition read_channel_id (b : TBrokerScanRange) : Z :=
  match channel_id b with Some c => c | None => 0 end.

(** [std::map<int32_t, std::map<int32_t, std::vector<TScanRangeParams>>>]
    as the entry lists of the maps, in key order. *)
Abbreviation NodeToPerDriverSeqScanRanges := (list (Z * list (Z * list TScanRangeParams))).

(** The calls made on the stream context manager, with their arguments. *)
Inductive ChannelCall :=
  | CreateChannelContext (label : string) (channel_id : Z) (db_name table_name : string)
      (format : Z) (load_id : TUniqueId) (txn_id : Z)
  | PutChannelContext (label : string) (channel_id : Z).

Section Pipe.

(** [StreamLoadContext*]. *)
Variable StreamLoadContext : Type.
(** [StreamContextMgr::create_channel_context] and [put_channel_context]. *)
Variable create_channel_context :
  string -> Z -> string -> string -> Z -> TUniqueId -> Z -> result StreamLoadContext.
Variable put_channel_context : string -> Z -> StreamLoadContext -> result unit.

(** The body of the innermost loop (lines 505-522), for one scan range.
    [None] is undefined behaviour: [ranges[0]] of an empty vector. *)
Definition load_scan_range (sr : TScanRangeParams) (calls : list ChannelCall)
  : option (result StreamLoadContext * list ChannelCall) :=
  let broker_scan_range := read_broker_scan_range (StreamLoad.scan_range sr) in
  let channel_id := read_channel_id broker_scan_range in
  let label := label (params broker_scan_range) in
  let db_name := db_name (params broker_scan_range) in
  let table_name := table_name (params broker_scan_range) in
  match ranges broker_scan_range with
  | [] => None
  | range0 :: _ =>
      let format := format_type range0 in
      let load_id := load_id range0 in
      let txn_id := txn_id (params broker_scan_range) in
      let calls1 := calls ++ [CreateChannelContext label channel_id db_name table_name
                                format load_id txn_id] in
      match create_channel_context label channel_id db_name table_name format load_id txn_id with
      | Err e => Some (Err e, calls1)
      | Ok ctx =>
          let calls2 := calls1 ++ [PutChannelContext label channel_id] in
          match put_channel_context label channel_id ctx with
          | Err e => Some (Err e, calls2)
          | Ok _ => Some (Ok ctx, calls2)
          end
      end
  end.

(** [for (const auto& scan_range : iter2->second)]: the contexts pushed
    back so far are [ctxs]. *)
Fixpoint load_scan_ranges (srs : list TScanRangeParams) (ctxs : list StreamLoadContext)
    (calls : list ChannelCall) : option (result (list StreamLoadContext) * list ChannelCall) :=
  match srs with
  | [] => Some (Ok ctxs, calls)
  | sr :: rest =>
      match load_scan_range sr calls with
      | None => None
      | Some (Err e, calls') => Some (Err e, calls')
      | Some (Ok ctx, calls') => load_scan_ranges rest (ctxs ++ [ctx]) calls'
      end
  end.

(** [for (; iter2 != iter->second.end(); iter2++)] over the driver
    sequences of one node. *)
Fixpoint load_driver_seqs (per_driver : list (Z * list TScanRangeParams))
    (ctxs : list StreamLoadContext) (calls : list ChannelCall)
  : option (result (list StreamLoadContext) * list ChannelCall) :=
  match per_driver with
  | [] => Some (Ok ctxs, calls)
  | (_, srs) :: rest =>
      match load_scan_ranges srs ctxs calls with
      | None => None
      | Some (Err e, calls') => Some (Err e, calls')
      | Some (Ok ctxs', calls') => load_driver_seqs rest ctxs' calls'
      end
  end.

(** [for (; iter != scan_range_map.end(); iter++)] (lines 502-525).
    [iter2] starts at the first driver sequence of the first node and is
    never reset: after the first node it is the end iterator of the first
    node's map, and with a second node the test [iter2 != iter->second.end()]
    compares iterators of two different maps, which is undefined ([None]). *)
Definition load_nodes (scan_range_map : NodeToPerDriverSeqScanRanges) (calls : list ChannelCall)
  : option (result (list StreamLoadContext) * list ChannelCall) :=
  match scan_range_map with
  | [] => Some (Ok [], calls)
  | (_, per_driver) :: rest =>
      match load_driver_seqs per_driver [] calls with
      | None => None
      | Some (Err e, calls') => Some (Err e, calls')
      | Some (Ok ctxs, calls') =>
          match rest with
          | [] => Some (Ok ctxs, calls')
          | _ :: _ => None
          end
      end
  end.

(** [_prepare_stream_load_pipe]: [Ok None] is an early [Status::OK()],
    [Ok (Some ctxs)] the call [set_stream_load_contexts(ctxs)] before
    returning OK; [None] is undefined behaviour. *)
Definition _prepare_stream_load_pipe (node_to_per_driver_seq_scan_ranges :
    option NodeToPerDriverSeqScanRanges) (calls : list ChannelCall)
  : option (result (option (list StreamLoadContext)) * list ChannelCall) :=
  match node_to_per_driver_seq_scan_ranges with
  | None => Some (Ok None, calls)
  | Some scan_range_map =>
      match scan_range_map with
      | [] => Some (Ok None, calls)
      | (_, per_driver) :: _ =>
          match per_driver with
          | [] => Some (Ok None, calls)
          | (_, srs) :: _ =>
              match srs with
              | [] => Some (Ok None, calls)
              | sr0 :: _ =>
                  match broker_scan_range (scan_range sr0) with
                  | None => Some (Ok None, calls)
                  | Some b =>
                      if negb (isset (channel_id b)) then Some (Ok None, calls)
                      else
                        match load_nodes scan_range_map calls with
                        | None => None
                        | Some (Err e, calls') => Some (Err e, calls')
                        | Some (Ok stream_load_contexts, calls') =>
                            Some (Ok (Some stream_load_contexts), calls')
                        end
                  end
              end
          end
      end
  end.

(** A scan range whose channel context is created as [ctx] and then put
    successfully. *)
Definition range_creates (sr : TScanRangeParams) (ctx : StreamLoadContext) : Prop :=
  let b := read_broker_scan_range (scan_range sr) in
  match ranges b with
  | [] => False
  | range0 :: _ =>
      create_channel_context (label (params b)) (read_channel_id b) (db_name (params b))
        (table_name (params b)) (format_type range0) (load_id range0) (txn_id (params b)) = Ok ctx /\
      put_channel_context (label (params b)) (read_channel_id b) ctx = Ok tt
  end.

End Pipe.

(** The guard of lines 480-500: the first scan range of the first driver
    sequence of the first node is a broker scan range with a channel id. *)
Definition is_channel_stream_load (m : option NodeToPerDriverSeqScanRanges) : bool :=
  match m with
  | Some ((_, (_, sr0 :: _) :: _) :: _) =>
      match broker_scan_range (scan_range sr0) with
      | Some b => isset (channel_id b)
      | None => false
      end
  | _ => false
  end.

(** The calls one scan range leads to when both succeed. *)
Definition range_calls (sr : TScanRangeParams) : list ChannelCall :=
  let b := read_broker_scan_range (scan_range sr) in
  match ranges b with
  | [] => []
  | range0 :: _ =>
      [CreateChannelContext (label (params b)) (read_channel_id b) (db_name (params b))
         (table_name (params b)) (format_type range0) (load_id range0) (txn_id (params b));
       PutChannelContext (label (params b)) (read_channel_id b)]
  end.

End StreamLoad.

(** ** Runtime state set-up of [_prepare_runtime_state] (lines 214-292) *)

Module RuntimeSetup.

(** The query options read here. *)
Record TQueryOptions := {
  query_mem_limit : option Z;
  enable_spill : option bool
}.

(** [TRuntimeFilterParams], as far as the executor reads it: the entries
    of its [id_to_prober_params] map (filter id to its probers). *)
Record TRuntimeFilterParams := {
  id_to_prober_params : list (Z * list Z)
}.

(** The request fields read here: the query options, the
    [runtime_filter_params] of [request.unique().params] and of
    [request.common().params], and [desc_tbl.is_cached]. *)
Record RuntimeStateRequest := {
  rs_query_options : TQueryOptions;
  unique_runtime_filter_params : option TRuntimeFilterParams;
  common_runtime_filter_params : option TRuntimeFilterParams;
  desc_tbl_is_cached : option bool
}.

(** The workgroup's [use_big_query_mem_limit()] and [big_query_mem_limit()]. *)
Record WorkGroup := {
  use_big_query_mem_limit : bool;
  big_query_mem_limit : Z
}.

(** The pool a descriptor table is created in: the query context's or the
    runtime state's. *)
Inductive ObjectPool := QueryObjectPool | RuntimeStateObjectPool.

Definition spill_enabled (qo : TQueryOptions) : bool :=
  match enable_spill qo with Some b => b | None => false end.

Section RuntimeState.

(** [DescriptorTbl*]. *)
Variable DescriptorTbl : Type.
(** [option_query_mem_limit * query_options.spill_mem_limit_threshold],
    computed in [double] and converted back to [int64_t]. *)
Variable spill_mem_limit_of : Z -> Z.
(** [DescriptorTbl::create] into the given pool. *)
Variable DescriptorTbl_create : ObjectPool -> result DescriptorTbl.
(** [QueryContext::init_spill_manager]. *)
Variable init_spill_manager : result unit.

(** What [_prepare_runtime_state] leaves on the shared query context: the
    arguments [(query_mem_limit, big_query_mem_limit, spill_mem_limit)] of
    [init_mem_tracker], the runtime-filter coordinator flag, the params
    passed to [open_query] in order, and the cached descriptor table. *)
Record QueryCtxState := {
  mem_tracker_limits : option (Z * Z * Z);
  is_runtime_filter_coordinator : bool;
  open_queries : list TRuntimeFilterParams;
  desc_tbl : option DescriptorTbl
}.

(** Lines 231-239. *)
Definition query_mem_limits (wg : WorkGroup) (query_options : TQueryOptions) : Z * Z * Z :=
  let option_query_mem_limit :=
    match query_mem_limit query_options with Some l => l | None => -1 end in
  let option_query_mem_limit :=
    if option_query_mem_limit <=? 0 then -1 else option_query_mem_limit in
  let big_query_mem_limit :=
    if use_big_query_mem_limit wg then big_query_mem_limit wg else -1 in
  let spill_mem_limit_bytes :=
    if spill_enabled query_options && (0 <? option_query_mem_limit)
    then spill_mem_limit_of option_query_mem_limit else -1 in
  (option_query_mem_limit, big_query_mem_limit, spill_mem_limit_bytes).

(** [params.__isset.runtime_filter_params && !...id_to_prober_params.empty()]. *)
Definition has_prober_params (p : option TRuntimeFilterParams) : bool :=
  match p with
  | Some p => match id_to_prober_params p with [] => false | _ :: _ => true end
  | None => false
  end.

(** Lines 253-260: the unique request's params, else the common ones. *)
Definition select_runtime_filter_params (request : RuntimeStateRequest)
  : option TRuntimeFilterParams :=
  if has_prober_params (unique_runtime_filter_params request)
  then unique_runtime_filter_params request
  else if has_prober_params (common_runtime_filter_params request)
  then common_runtime_filter_params request
  else None.

(** [_prepare_runtime_state] on the query context: the memory tracker, the
    runtime filters (lines 261-264), the descriptor table (lines 268-285)
    and the spill manager (lines 287-289). The result is the descriptor
    table given to the runtime state. *)
Definition _prepare_runtime_state (wg : WorkGroup) (request : RuntimeStateRequest)
    (qs : QueryCtxState) : result DescriptorTbl * QueryCtxState :=
  let query_options := rs_query_options request in
  let qs1 := {| mem_tracker_limits := Some (query_mem_limits wg query_options);
                is_runtime_filter_coordinator := is_runtime_filter_coordinator qs;
                open_queries := open_queries qs; desc_tbl := desc_tbl qs |} in
  let qs2 := match select_runtime_filter_params request with
             | Some runtime_filter_params =>
                 {| mem_tracker_limits := mem_tracker_limits qs1;
                    is_runtime_filter_coordinator := true;
                    open_queries := open_queries qs1 ++ [runtime_filter_params];
                    desc_tbl := desc_tbl qs1 |}
             | None => qs1
             end in
  let finish (desc_tbl : DescriptorTbl) (qs3 : QueryCtxState) :=
    if spill_enabled query_options then
      match init_spill_manager with
      | Ok _ => (Ok desc_tbl, qs3)
      | Err e => (Err e, qs3)
      end
    else (Ok desc_tbl, qs3) in
  match desc_tbl_is_cached request with
  | Some true =>
      match desc_tbl qs2 with
      | None => (Err Cancelled, qs2)
      | Some desc_tbl => finish desc_tbl qs2
      end
  | Some false =>
      match DescriptorTbl_create QueryObjectPool with
      | Err e => (Err e, qs2)
      | Ok desc_tbl =>
          finish desc_tbl {| mem_tracker_limits := mem_tracker_limits qs2;
                             is_runtime_filter_coordinator := is_runtime_filter_coordinator qs2;
                             open_queries := open_queries qs2;
                             desc_tbl := Some desc_tbl |}
      end
  | None =>
      match DescriptorTbl_create RuntimeStateObjectPool with
      | Err e => (Err e, qs2)
      | Ok desc_tbl => finish desc_tbl qs2
      end
  end.

End RuntimeState.

Arguments mem_tracker_limits {_} _.
Arguments is_runtime_filter_coordinator {_} _.
Arguments open_queries {_} _.
Arguments desc_tbl {_} _.

End RuntimeSetup.

(** ** Global dictionaries of [_prepare_global_dict] (lines 625-641) *)

Module GlobalDict.

(** The [RuntimeState] calls made. *)
Inductive DictCall := InitQueryGlobalDict | InitQueryGlobalDictExprs | InitLoadGlobalDict.

(** A sequence of [RETURN_IF_ERROR]ed calls, with the calls made so far. *)
Definition Calls := list DictCall -> result unit * list DictCall.

Definition call (c : DictCall) (r : result unit) : Calls := fun calls => (r, calls ++ [c]).

Definition skip : Calls := fun calls => (Ok tt, calls).

Definition seq (m1 m2 : Calls) : Calls := fun calls =>
  match m1 calls with
  | (Ok _, calls') => m2 calls'
  | (Err e, calls') => (Err e, calls')
  end.

Section Dicts.

(** [TGlobalDict] and [TExpr]. *)
Variable TGlobalDict : Type.
Variable TExpr : Type.

(** The [TPlanFragment] fields read here. *)
Record TPlanFragment := {
  query_global_dicts : option (list TGlobalDict);
  query_global_dict_exprs : option (list (Z * TExpr));
  load_global_dicts : option (list TGlobalDict)
}.

Variable init_query_global_dict : list TGlobalDict -> result unit.
Variable init_query_global_dict_exprs : list (Z * TExpr) -> result unit.
Variable init_load_global_dict : list TGlobalDict -> result unit.

Definition _prepare_global_dict (fragment : TPlanFragment) : Calls :=
  seq (match query_global_dicts fragment with
       | Some d => call InitQueryGlobalDict (init_query_global_dict d)
       | None => skip
       end)
  (seq (match query_global_dicts fragment, query_global_dict_exprs fragment with
        | Some _, Some exprs => call InitQueryGlobalDictExprs (init_query_global_dict_exprs exprs)
        | _, _ => skip
        end)
       (match load_global_dicts fragment with
        | Some d => call InitLoadGlobalDict (init_load_global_dict d)
        | None => skip
        end)).

End Dicts.

Arguments query_global_dicts {_ _} _.
Arguments query_global_dict_exprs {_ _} _.
Arguments load_global_dicts {_ _} _.

End GlobalDict.

(** * Sample inputs *)

Module Examples.

Import ScanPlan Adaptive Executor.

(** A scan node 1 with one tablet 10 of partition 100, whose region is
    "ab", on one driver sequence. *)
Definition ex_range : TScanRangeParams :=
  {| scan_range := {| internal_scan_range := Some {| tablet_id := 10; partition_id := 100 |} |} |}.

(** The internal scan range of [ex_range]. *)
Definition ex_internal : TInternalScanRange := {| tablet_id := 10; partition_id := 100 |}.

Definition ex_cache_param : TCacheParam :=
  {| tc_id := 1; tc_digest := "d"%string; tc_cached_plan_node_ids := Some [1];
     tc_region_map := [(100, "ab"%string)] |}.

Definition ex_node : ScanNode :=
  {| sn_id := 1; sn_limit := 0; sn_io_tasks_per_scan_operator := 1 |}.

Definition ex_scan_req (lanes : bool) (cache : option TCacheParam) : UnifiedExecPlanFragmentParams :=
  {| per_node_scan_ranges := [(1, [ex_range])];
     node_to_per_driver_seq_scan_ranges := if lanes then Some [(1, [(0, [ex_range])])] else None;
     common_enable_shared_scan := Some true;
     fragment_cache_param := cache;
     enable_tablet_internal_parallel_opt := None;
     tablet_internal_parallel_mode_opt := None |}.

(** A scan node whose morsel queue factory is shared. *)
Definition ex_convert (sn : ScanNode) (_ : list TScanRangeParams) (_ : PerDriverScanRangesMap)
    (_ _ : Z) (_ : bool) (_ : TTabletInternalParallelMode) : result MorselQueueFactory :=
  Ok {| mqf_node_id := sn_id sn; is_shared := true |}.

(** An initially active pipeline of [dop] lanes. *)
Definition ex_pipeline (dop : nat) : Pipeline :=
  {| pipeline_id := 0;
     source_operator_factory :=
       {| sof_id := 0; is_adaptive_group_initial_active := true; group_leader := 0 |};
     degree_of_parallelism := dop; drivers := [] |}.

Definition ex_request : Request :=
  {| query_id := (1, 1); fragment_instance_id := (1, 2); instances_number := Some 1;
     query_options := {| Expire.query_timeout := Some 5;
                         Expire.query_delivery_timeout := None |} |}.

Definition ex_fragment_ctx (pipelines : list Pipeline) : FragmentContext :=
  {| fc_query_id := (1, 1); fc_fragment_instance_id := (1, 2);
     fc_pipelines := pipelines; fc_driver_token := Some 1 |}.

(** A query context holding the fragment of [ex_request] when [registered]. *)
Definition ex_query_ctx (registered : bool) : QueryContext :=
  {| fragment_mgr := if registered then {[ (1, 2) := ex_fragment_ctx [] ]} else ∅;
     total_fragments := Some 1; num_active_fragments := 1;
     delivery_expire_seconds := 5; query_expire_seconds := 5;
     delivery_deadline := 5000000000; query_deadline := 5000000000; is_prepared := true |}.

(** An environment with the given query pool consumption (of a limit of
    100), driver budget and registry. *)
Definition ex_env (consumption max_drivers : Z) (registry : gmap TUniqueId QueryContext)
  : ExecEnv :=
  {| query_context_mgr := registry; query_pool_consumption := consumption;
     query_pool_limit := 100; num_total_drivers := 0; max_num_drivers := max_drivers;
     try_acquire_requests := []; driver_calls := []; now := 0 |}.

End Examples.

Module LoadExamples.

Import StreamLoad.

Definition ex_desc : TBrokerRangeDesc := {| format_type := 0; load_id := (1, 1) |}.

(** A broker scan range of channel [channel] for label "l" of table
    "db"."t", transaction 7, with the range descriptors [descs]. *)
Definition ex_broker_range (channel : Z) (descs : list TBrokerRangeDesc) : TScanRangeParams :=
  {| scan_range := {| broker_scan_range :=
       Some {| channel_id := Some channel;
               params := {| label := "l"; db_name := "db"; table_name := "t"; txn_id := 7 |};
               ranges := descs |} |} |}.

(** A stream context manager whose contexts are the channel ids, and whose
    [put_channel_context] fails for the channel [bad]. *)
Definition ex_create (_ : string) (channel_id : Z) (_ _ : string) (_ : Z) (_ : TUniqueId) (_ : Z)
  : result Z := Ok channel_id.

Definition ex_put (bad : Z) (_ : string) (channel_id : Z) (_ : Z) : result unit :=
  if Z.eqb channel_id bad then Err InternalError else Ok tt.

Definition ex_ctx_of (sr : TScanRangeParams) : Z :=
  read_channel_id (read_broker_scan_range (scan_range sr)).

End LoadExamples.

Module RuntimeExamples.

Import RuntimeSetup.

Definition ex_wg : WorkGroup := {| use_big_query_mem_limit := false; big_query_mem_limit := 0 |}.

(** A request with a query memory limit of 100 bytes, spill on, runtime
    filter params in the common request only, and the given
    [desc_tbl.is_cached]. *)
Definition ex_rs_request (cached : option bool) : RuntimeStateRequest :=
  {| rs_query_options := {| query_mem_limit := Some 100; enable_spill := Some true |};
     unique_runtime_filter_params := None;
     common_runtime_filter_params := Some {| id_to_prober_params := [(1, [2])] |};
     desc_tbl_is_cached := cached |}.

(** A fresh query context, descriptor tables being numbered. *)
Definition ex_query_ctx_state : QueryCtxState Z :=
  {| mem_tracker_limits := None; is_runtime_filter_coordinator := false;
     open_queries := []; desc_tbl := None |}.

End RuntimeExamples.

(** * Proofs *)

Module ExpireProofs.

Import Expire.

(** C8: the delivery expire seconds are [max(1, min(delivery, query))]
    when both timeouts are set, [max(1, delivery)] or [max(1, query)] when
    only one is, and the default otherwise; the query expire seconds are
    [max(1, query_timeout)] when set and the default otherwise; with
    [query_timeout = 5] and no delivery timeout both are 5, and with
    delivery timeout 2 and query timeout 5 the delivery expire is 2. *)
Theorem calc_expired_seconds_spec (DEFAULT_EXPIRE_SECONDS : Z)
    (Hdefault : 1 <= DEFAULT_EXPIRE_SECONDS) (qo : TQueryOptions) :
  _calc_delivery_expired_seconds DEFAULT_EXPIRE_SECONDS qo =
    match query_delivery_timeout qo, query_timeout qo with
    | Some qdt, Some qt => Z.max 1 (Z.min qdt qt)
    | Some qdt, None => Z.max 1 qdt
    | None, Some qt => Z.max 1 qt
    | None, None => DEFAULT_EXPIRE_SECONDS
    end /\
  _calc_query_expired_seconds DEFAULT_EXPIRE_SECONDS qo =
    match query_timeout qo with
    | Some qt => Z.max 1 qt
    | None => DEFAULT_EXPIRE_SECONDS
    end /\
  (let qo5 := {| query_timeout := Some 5; query_delivery_timeout := None |} in
   _calc_delivery_expired_seconds DEFAULT_EXPIRE_SECONDS qo5 = 5 /\
   _calc_query_expired_seconds DEFAULT_EXPIRE_SECONDS qo5 = 5) /\
  _calc_delivery_expired_seconds DEFAULT_EXPIRE_SECONDS
    {| query_timeout := Some 5; query_delivery_timeout := Some 2 |} = 2.
Proof.
  unfold _calc_delivery_expired_seconds, _calc_query_expired_seconds; simpl.
  destruct qo as [[qt|] [qdt|]]; simpl; repeat split; try reflexivity.
  - rewrite Z.min_comm; reflexivity.
  - lia.
Qed.

Lemma calc_expired_seconds_spec_witness :
  1 <= 300 /\
  _calc_delivery_expired_seconds 300 {| query_timeout := Some 7; query_delivery_timeout := Some 0 |} = 1.
Proof.
  split; [lia |].
  destruct (calc_expired_seconds_spec 300 ltac:(lia)
              {| query_timeout := Some 7; query_delivery_timeout := Some 0 |}) as [H _].
  rewrite H. reflexivity.
Defined.

End ExpireProofs.

Module ScanPlanProofs.

Import ScanPlan Examples.

Section LoopFacts.

Variable query_cache_num_lanes_per_driver dop : Z.
Variable convert_scan_range_to_morsel_queue_factory :
  ScanNode -> list TScanRangeParams -> PerDriverScanRangesMap -> Z -> Z -> bool ->
  TTabletInternalParallelMode -> result MorselQueueFactory.

Local Abbreviation step := (scan_node_step query_cache_num_lanes_per_driver dop
                          convert_scan_range_to_morsel_queue_factory).
Local Abbreviation loop := (scan_loop query_cache_num_lanes_per_driver dop
                          convert_scan_range_to_morsel_queue_factory).
Local Abbreviation factory := (factory_of_node dop convert_scan_range_to_morsel_queue_factory).

(** What one iteration does to the flags and the [enable_shared_scan] calls. *)
Lemma step_facts req st sn st' :
  step req st sn = Ok st' ->
  exists f, factory req sn = Ok f /\
    shared_scan_calls st' =
      shared_scan_calls st ++ [(sn_id sn, enable_shared_scan st' && is_shared f)] /\
    enable_cache st' =
      match per_driver_seq_scan_ranges_of_node req (sn_id sn) with
      | [] => false
      | _ => enable_cache st
      end /\
    enable_shared_scan st' = (if enable_cache st' then false else enable_shared_scan st).
Proof.
  unfold scan_node_step. cbn zeta.
  destruct (factory req sn) as [f|e] eqn:Hf; [|discriminate].
  intros H; injection H as <-. exists f. cbn. repeat split; reflexivity.
Qed.

Lemma scan_loop_app req st xs ys :
  loop req st (xs ++ ys) =
  match loop req st xs with Ok s => loop req s ys | Err e => Err e end.
Proof.
  revert st. induction xs as [|x xs IH]; intros st; simpl; [reflexivity|].
  destruct (step req st x); [apply IH | reflexivity].
Qed.

(** The loop appends one [enable_shared_scan] call per scan node. *)
Lemma loop_calls req st ns st' :
  loop req st ns = Ok st' ->
  exists l, shared_scan_calls st' = shared_scan_calls st ++ l /\ map fst l = map sn_id ns.
Proof.
  revert st. induction ns as [|n ns IH]; intros st H; simpl in H.
  - injection H as <-. exists []. rewrite app_nil_r. split; reflexivity.
  - destruct (step req st n) as [s1|e] eqn:Hs; [|discriminate].
    destruct (step_facts _ _ _ _ Hs) as (f & _ & Hc & _).
    destruct (IH _ H) as (l & Hl & Hm).
    exists ((sn_id n, enable_shared_scan s1 && is_shared f) :: l).
    rewrite Hl, Hc, <- app_assoc. split; [reflexivity | simpl; rewrite Hm; reflexivity].
Qed.

(** Once off, the query cache stays off. *)
Lemma loop_cache_off req st ns st' :
  loop req st ns = Ok st' -> enable_cache st = false -> enable_cache st' = false.
Proof.
  revert st. induction ns as [|n ns IH]; intros st H Hoff; simpl in H.
  - injection H as <-. exact Hoff.
  - destruct (step req st n) as [s1|e] eqn:Hs; [|discriminate].
    destruct (step_facts _ _ _ _ Hs) as (f & _ & _ & Hec & _).
    apply (IH s1 H). rewrite Hec, Hoff. destruct (per_driver_seq_scan_ranges_of_node req (sn_id n)); reflexivity.
Qed.

(** Once off, the local [enable_shared_scan] stays off. *)
Lemma loop_shared_off req st ns st' :
  loop req st ns = Ok st' -> enable_shared_scan st = false -> enable_shared_scan st' = false.
Proof.
  revert st. induction ns as [|n ns IH]; intros st H Hoff; simpl in H.
  - injection H as <-. exact Hoff.
  - destruct (step req st n) as [s1|e] eqn:Hs; [|discriminate].
    destruct (step_facts _ _ _ _ Hs) as (f & _ & _ & _ & Hess).
    apply (IH s1 H). rewrite Hess, Hoff. destruct (enable_cache s1); reflexivity.
Qed.

Lemma initial_calls req spill : shared_scan_calls (initial_loop_state req spill) = [].
Proof.
  unfold initial_loop_state.
  destruct (fragment_cache_param req); [destruct spill|]; reflexivity.
Qed.

Lemma initial_shared req spill :
  enable_shared_scan (initial_loop_state req spill) =
  match common_enable_shared_scan req with Some b => b | None => false end.
Proof.
  unfold initial_loop_state.
  destruct (fragment_cache_param req); [destruct spill|]; reflexivity.
Qed.

(** C5 invariant: if the cache is on at the end, every call passed false. *)
Lemma loop_cache_excludes_shared req st ns st' :
  loop req st ns = Ok st' ->
  Forall (fun c => snd c = false) (shared_scan_calls st) ->
  enable_cache st' = true ->
  Forall (fun c => snd c = false) (shared_scan_calls st').
Proof.
  revert st. induction ns as [|n ns IH]; intros st H Hall Hon; simpl in H.
  - injection H as <-. exact Hall.
  - destruct (step req st n) as [s1|e] eqn:Hs; [|discriminate].
    destruct (step_facts _ _ _ _ Hs) as (f & _ & Hc & _ & Hess).
    apply (IH s1 H); [|exact Hon].
    assert (Hon1 : enable_cache s1 = true).
    { destruct (enable_cache s1) eqn:E; [reflexivity|].
      rewrite (loop_cache_off _ _ _ _ H E) in Hon. discriminate. }
    rewrite Hc. apply Forall_app. split; [exact Hall|].
    constructor; [|constructor]. simpl. rewrite Hess, Hon1. reflexivity.
Qed.

(** A scan node without per-driver ranges turns the cache off for good. *)
Lemma loop_empty_node_cache_off req st ns st' n :
  loop req st ns = Ok st' ->
  In n ns -> per_driver_seq_scan_ranges_of_node req (sn_id n) = [] ->
  enable_cache st' = false.
Proof.
  revert st. induction ns as [|m ns IH]; intros st H Hin Hemp; [destruct Hin|].
  simpl in H. destruct (step req st m) as [s1|e] eqn:Hs; [|discriminate].
  destruct Hin as [<- | Hin].
  - destruct (step_facts _ _ _ _ Hs) as (f & _ & _ & Hec & _).
    rewrite Hemp in Hec. exact (loop_cache_off _ _ _ _ H Hec).
  - exact (IH s1 H Hin Hemp).
Qed.

(** C5: when the query cache is enabled for the fragment at the end of the
    scan-node loop, every scan node received [enable_shared_scan(false)]:
    cache mode and shared-scan mode are never both on. *)
Theorem cache_enabled_forces_shared_scan_off req enable_spill nodes st :
  loop req (initial_loop_state req enable_spill) nodes = Ok st ->
  enable_cache st = true ->
  map fst (shared_scan_calls st) = map sn_id nodes /\
  Forall (fun c => snd c = false) (shared_scan_calls st).
Proof.
  intros H Hon. split.
  - destruct (loop_calls _ _ _ _ H) as (l & Hl & Hm).
    rewrite Hl, initial_calls. exact Hm.
  - apply (loop_cache_excludes_shared _ _ _ _ H); [|exact Hon].
    rewrite initial_calls. constructor.
Qed.

(** C6: when a scan node has an empty per-driver-sequence scan-range map,
    the cache is off after that node and stays off to the end of the loop. *)
Theorem empty_per_driver_ranges_disable_cache req enable_spill pre n post :
  per_driver_seq_scan_ranges_of_node req (sn_id n) = [] ->
  (forall st, loop req (initial_loop_state req enable_spill) (pre ++ n :: post) = Ok st ->
              enable_cache st = false) /\
  (forall mid rest st, post = mid ++ rest ->
     loop req (initial_loop_state req enable_spill) (pre ++ n :: mid) = Ok st ->
     enable_cache st = false).
Proof.
  intros Hemp. split.
  - intros st H. apply (loop_empty_node_cache_off _ _ _ _ n H); [|exact Hemp].
    apply in_or_app. right. left. reflexivity.
  - intros mid rest st _ H. apply (loop_empty_node_cache_off _ _ _ _ n H); [|exact Hemp].
    apply in_or_app. right. left. reflexivity.
Qed.

(** C10: the value passed to [enable_shared_scan] for the k-th scan node
    is true only if shared scan was requested for the fragment, the cache
    flag is off once that node has been processed, and the node's own
    morsel queue factory is shared. *)
Theorem shared_scan_flag_requires_request_no_cache_shared_factory
    req enable_spill nodes st k n :
  loop req (initial_loop_state req enable_spill) nodes = Ok st ->
  nth_error nodes k = Some n ->
  exists b, nth_error (shared_scan_calls st) k = Some (sn_id n, b) /\
    (b = true ->
     common_enable_shared_scan req = Some true /\
     (forall s, loop req (initial_loop_state req enable_spill) (firstn (S k) nodes) = Ok s ->
                enable_cache s = false) /\
     (forall f, factory req n = Ok f -> is_shared f = true)).
Proof.
  intros H Hk.
  pose proof (nth_error_split nodes k Hk) as (pre & post & Hsplit & Hlen).
  rewrite Hsplit, scan_loop_app in H.
  destruct (loop req (initial_loop_state req enable_spill) pre) as [sk|e] eqn:Hpre;
    [|discriminate].
  simpl in H. destruct (step req sk n) as [s1|e] eqn:Hs; [|discriminate].
  destruct (step_facts _ _ _ _ Hs) as (f & Hf & Hc & _ & Hess).
  destruct (loop_calls _ _ _ _ Hpre) as (lpre & Hlpre & Hmpre).
  destruct (loop_calls _ _ _ _ H) as (lpost & Hlpost & _).
  rewrite initial_calls in Hlpre. simpl in Hlpre.
  assert (Hlenpre : length (shared_scan_calls sk) = k).
  { rewrite Hlpre, <- Hlen, <- (length_map fst lpre), Hmpre, length_map. reflexivity. }
  exists (enable_shared_scan s1 && is_shared f). split.
  - rewrite Hlpost, Hc, <- app_assoc, nth_error_app2 by lia.
    rewrite Hlenpre, Nat.sub_diag. reflexivity.
  - intros Hb. apply andb_true_iff in Hb as [Hb1 Hb2].
    assert (Hoff1 : enable_cache s1 = false).
    { rewrite Hess in Hb1. destruct (enable_cache s1); [discriminate | reflexivity]. }
    assert (Hsk : enable_shared_scan sk = true).
    { rewrite Hess, Hoff1 in Hb1. exact Hb1. }
    split; [|split].
    + destruct (enable_shared_scan (initial_loop_state req enable_spill)) eqn:E0.
      * rewrite initial_shared in E0.
        destruct (common_enable_shared_scan req) as [[|]|]; try discriminate; reflexivity.
      * rewrite (loop_shared_off _ _ _ _ Hpre E0) in Hsk. discriminate.
    + intros s Hs'. rewrite Hsplit in Hs'.
      assert (Hfirst : firstn (S k) (pre ++ n :: post) = pre ++ [n]).
      { rewrite firstn_app, <- Hlen, firstn_all2 by lia.
        replace (S (length pre) - length pre)%nat with 1%nat by lia. reflexivity. }
      rewrite Hfirst, scan_loop_app, Hpre in Hs'. simpl in Hs'. rewrite Hs in Hs'.
      injection Hs' as <-. exact Hoff1.
    + intros f' Hf'. rewrite Hf in Hf'. injection Hf' as <-. exact Hb2.
Qed.

(** What one iteration does to the cache-key prefixes. *)
Lemma step_prefixes req st sn st' :
  step req st sn = Ok st' ->
  cache_key_prefixes (cache_param st') =
    if enable_cache st' && existsb (Z.eqb (sn_id sn)) (cached_plan_node_ids (cache_param st))
    then compute_cache_key_prefixes
           (match fragment_cache_param req with Some t => tc_region_map t | None => [] end)
           (per_driver_seq_scan_ranges_of_node req (sn_id sn))
           (cache_key_prefixes (cache_param st))
    else cache_key_prefixes (cache_param st).
Proof.
  unfold scan_node_step. cbn zeta.
  destruct (factory req sn) as [f|e]; [|discriminate].
  intros H; injection H as <-. cbn.
  destruct (match per_driver_seq_scan_ranges_of_node req (sn_id sn) with
            | [] => false | _ :: _ => enable_cache st end);
    destruct (existsb (Z.eqb (sn_id sn)) (cached_plan_node_ids (cache_param st))); reflexivity.
Qed.

End LoopFacts.

(** With the cache requested, the cached node's per-driver ranges present
    and a shared factory, the cache stays on and node 1 gets
    [enable_shared_scan(false)]. *)
Lemma cache_enabled_forces_shared_scan_off_witness :
  exists st,
    scan_loop 4 4 ex_convert (ex_scan_req true (Some ex_cache_param))
      (initial_loop_state (ex_scan_req true (Some ex_cache_param)) false) [ex_node] = Ok st /\
    enable_cache st = true /\
    Forall (fun c => snd c = false) (shared_scan_calls st).
Proof.
  eexists. split; [reflexivity|]. split; [reflexivity|].
  exact (proj2 (cache_enabled_forces_shared_scan_off 4 4 ex_convert
                  (ex_scan_req true (Some ex_cache_param)) false [ex_node] _ eq_refl eq_refl)).
Defined.

(** With the cache requested but no per-driver ranges for node 1, the
    cache is on before the loop and off after it. *)
Lemma empty_per_driver_ranges_disable_cache_witness :
  per_driver_seq_scan_ranges_of_node (ex_scan_req false (Some ex_cache_param)) (sn_id ex_node) = [] /\
  enable_cache (initial_loop_state (ex_scan_req false (Some ex_cache_param)) false) = true /\
  exists st,
    scan_loop 4 4 ex_convert (ex_scan_req false (Some ex_cache_param))
      (initial_loop_state (ex_scan_req false (Some ex_cache_param)) false) [ex_node] = Ok st /\
    enable_cache st = false.
Proof.
  split; [reflexivity|]. split; [reflexivity|].
  eexists. split; [reflexivity|].
  exact (proj1 (empty_per_driver_ranges_disable_cache 4 4 ex_convert
                  (ex_scan_req false (Some ex_cache_param)) false [] ex_node [] eq_refl) _ eq_refl).
Defined.

(** Without a cache and with shared scan requested, node 1 with a shared
    factory gets [enable_shared_scan(true)], which needs the request. *)
Lemma shared_scan_flag_requires_request_no_cache_shared_factory_witness :
  exists st,
    scan_loop 4 4 ex_convert (ex_scan_req true None)
      (initial_loop_state (ex_scan_req true None) false) [ex_node] = Ok st /\
    nth_error (shared_scan_calls st) 0 = Some (1, true) /\
    common_enable_shared_scan (ex_scan_req true None) = Some true.
Proof.
  eexists. split; [reflexivity|]. split; [reflexivity|].
  destruct (shared_scan_flag_requires_request_no_cache_shared_factory 4 4 ex_convert
              (ex_scan_req true None) false [ex_node] _ 0 ex_node eq_refl eq_refl)
    as (b & Hb & Himp).
  simpl in Hb. injection Hb as Hb.
  exact (proj1 (Himp (eq_sym Hb))).
Defined.

Lemma compute_cache_key_prefixes_concat rm per acc :
  compute_cache_key_prefixes rm per acc =
  fold_left (cache_key_prefix_step rm) (concat (map snd per)) acc.
Proof.
  unfold compute_cache_key_prefixes. revert acc.
  induction per as [|ds per IH]; intros acc; simpl; [reflexivity|].
  rewrite fold_left_app. apply IH.
Qed.

(** Ranges that do not produce a prefix for [tid] leave its entry alone. *)
Lemma prefixes_fold_untouched rm (l : list TScanRangeParams) acc tid :
  (forall r i, In r l -> internal_scan_range (scan_range r) = Some i -> tablet_id i = tid ->
               map_count rm (partition_id i) = false) ->
  fold_left (cache_key_prefix_step rm) l acc !! tid = acc !! tid.
Proof.
  revert acc. induction l as [|r l IH]; intros acc Hno; simpl; [reflexivity|].
  rewrite IH by (intros r' i Hr; apply Hno; right; exact Hr).
  unfold cache_key_prefix_step.
  destruct (internal_scan_range (scan_range r)) as [i|] eqn:Hi; [|reflexivity].
  destruct (map_count rm (partition_id i)) eqn:Hc; simpl; [|reflexivity].
  destruct (Z.eq_dec (tablet_id i) tid) as [Heq|Hne].
  - rewrite (Hno r i (or_introl eq_refl) Hi Heq) in Hc. discriminate.
  - rewrite lookup_insert_ne by exact Hne. reflexivity.
Qed.

(** With a tablet always in the same partition, the prefix of a tablet is
    the one built from any of its ranges. *)
Lemma prefixes_fold_value rm (l : list TScanRangeParams) acc r i :
  (forall r1 r2 i1 i2, In r1 l -> In r2 l ->
     internal_scan_range (scan_range r1) = Some i1 ->
     internal_scan_range (scan_range r2) = Some i2 ->
     tablet_id i1 = tablet_id i2 -> partition_id i1 = partition_id i2) ->
  In r l -> internal_scan_range (scan_range r) = Some i -> map_count rm (partition_id i) = true ->
  fold_left (cache_key_prefix_step rm) l acc !! tablet_id i = Some (prefix_value rm i).
Proof.
  revert acc r i. induction l as [|x l IH]; intros acc r i Hcons Hin Hi Hreg; [destruct Hin|].
  simpl. destruct Hin as [-> | Hin].
  - set (p := fun r' => match internal_scan_range (scan_range r') with
                        | Some i' => Z.eqb (tablet_id i') (tablet_id i) && map_count rm (partition_id i')
                        | None => false
                        end).
    destruct (existsb p l) eqn:Hex.
    + apply existsb_exists in Hex as (r' & Hr' & Hp). unfold p in Hp.
      destruct (internal_scan_range (scan_range r')) as [i'|] eqn:Hi'; [|discriminate].
      apply andb_true_iff in Hp as [Ht Hc']. apply Z.eqb_eq in Ht.
      rewrite <- Ht. rewrite (IH _ r' i' (fun r1 r2 i1 i2 H1 H2 => Hcons r1 r2 i1 i2 (or_intror H1) (or_intror H2))
                                Hr' Hi' Hc').
      unfold prefix_value. rewrite Ht.
      rewrite (Hcons r' r i' i (or_intror Hr') (or_introl eq_refl) Hi' Hi Ht). reflexivity.
    + rewrite prefixes_fold_untouched.
      * unfold cache_key_prefix_step. rewrite Hi, Hreg. simpl.
        rewrite lookup_insert_eq. reflexivity.
      * intros r' i' Hr' Hi' Ht.
        destruct (map_count rm (partition_id i')) eqn:Hc'; [|reflexivity].
        assert (Hp : p r' = true) by (unfold p; rewrite Hi', Ht, Z.eqb_refl, Hc'; reflexivity).
        assert (existsb p l = true) by (apply existsb_exists; exists r'; split; assumption).
        congruence.
  - apply (IH _ r i); [|exact Hin|exact Hi|exact Hreg].
    intros r1 r2 i1 i2 H1 H2. apply Hcons; right; assumption.
Qed.

Lemma length_string_append (a b : string) :
  String.length (String.append a b) = (String.length a + String.length b)%nat.
Proof. induction a as [|c a IH]; simpl; [reflexivity | rewrite IH; reflexivity]. Qed.

Lemma length_int64_bytes x : String.length (int64_bytes x) = 8%nat.
Proof. reflexivity. Qed.

(** C7: when the cache is on at a scan node listed in the cached plan
    node ids, every internal scan range of the node's per-driver ranges
    whose partition has a region gets, for its tablet, the key prefix
    made of the bytes of [partition_id], the region and the bytes of
    [tablet_id], of length [8 + len(region) + 8]; a tablet for which no
    internal range has a registered partition gets nothing new. The
    ranges are assumed to put each tablet in a single partition. *)
Theorem cache_key_prefix_spec query_cache_num_lanes_per_driver dop
    convert_scan_range_to_morsel_queue_factory req st sn st' tcache_param :
  scan_node_step query_cache_num_lanes_per_driver dop convert_scan_range_to_morsel_queue_factory
    req st sn = Ok st' ->
  fragment_cache_param req = Some tcache_param ->
  enable_cache st' = true ->
  In (sn_id sn) (cached_plan_node_ids (cache_param st)) ->
  let ranges := concat (map snd (per_driver_seq_scan_ranges_of_node req (sn_id sn))) in
  let region_map := tc_region_map tcache_param in
  (forall r1 r2 i1 i2, In r1 ranges -> In r2 ranges ->
     internal_scan_range (scan_range r1) = Some i1 ->
     internal_scan_range (scan_range r2) = Some i2 ->
     tablet_id i1 = tablet_id i2 -> partition_id i1 = partition_id i2) ->
  (forall r i, In r ranges -> internal_scan_range (scan_range r) = Some i ->
     map_count region_map (partition_id i) = true ->
     let region := FindWithDefault region_map (partition_id i) EmptyString in
     let key := String.append (int64_bytes (partition_id i))
                  (String.append region (int64_bytes (tablet_id i))) in
     cache_key_prefixes (cache_param st') !! tablet_id i = Some key /\
     String.length key = (8 + String.length region + 8)%nat) /\
  (forall tid, (forall r i, In r ranges -> internal_scan_range (scan_range r) = Some i ->
                  tablet_id i = tid -> map_count region_map (partition_id i) = false) ->
     cache_key_prefixes (cache_param st') !! tid = cache_key_prefixes (cache_param st) !! tid).
Proof.
  intros Hs Htc Hon Hcached ranges region_map Hcons.
  rewrite (step_prefixes _ _ _ _ _ _ _ Hs), Htc, Hon.
  assert (Hex : existsb (Z.eqb (sn_id sn)) (cached_plan_node_ids (cache_param st)) = true).
  { apply existsb_exists. exists (sn_id sn). split; [exact Hcached | apply Z.eqb_refl]. }
  rewrite Hex. simpl. rewrite compute_cache_key_prefixes_concat. split.
  - intros r i Hr Hi Hreg. cbv zeta. split.
    + exact (prefixes_fold_value _ _ _ r i Hcons Hr Hi Hreg).
    + rewrite !length_string_append, !length_int64_bytes. simpl. lia.
  - intros tid Hno. apply prefixes_fold_untouched. exact Hno.
Qed.

(** At node 1 with the cache on, tablet 10 of partition 100 (region "ab")
    gets the 18-byte key [bytes(100) ++ "ab" ++ bytes(10)]. *)
Lemma cache_key_prefix_spec_witness :
  exists st',
    scan_node_step 4 4 ex_convert (ex_scan_req true (Some ex_cache_param))
      (initial_loop_state (ex_scan_req true (Some ex_cache_param)) false) ex_node = Ok st' /\
    enable_cache st' = true /\
    cache_key_prefixes (cache_param st') !! 10 =
      Some (String.append (int64_bytes 100) (String.append "ab" (int64_bytes 10))) /\
    String.length (String.append (int64_bytes 100) (String.append "ab" (int64_bytes 10))) = 18%nat.
Proof.
  eexists. split; [reflexivity|]. split; [reflexivity|].
  assert (Hcons : forall r1 r2 i1 i2,
             In r1 (concat (map snd (per_driver_seq_scan_ranges_of_node
                                       (ex_scan_req true (Some ex_cache_param)) (sn_id ex_node)))) ->
             In r2 (concat (map snd (per_driver_seq_scan_ranges_of_node
                                       (ex_scan_req true (Some ex_cache_param)) (sn_id ex_node)))) ->
             internal_scan_range (scan_range r1) = Some i1 ->
             internal_scan_range (scan_range r2) = Some i2 ->
             tablet_id i1 = tablet_id i2 -> partition_id i1 = partition_id i2).
  { intros r1 r2 i1 i2 H1 H2 E1 E2 _. simpl in H1, H2.
    destruct H1 as [<- | []]. destruct H2 as [<- | []].
    simpl in E1, E2. congruence. }
  destruct (cache_key_prefix_spec 4 4 ex_convert (ex_scan_req true (Some ex_cache_param))
              (initial_loop_state (ex_scan_req true (Some ex_cache_param)) false) ex_node _
              ex_cache_param eq_refl eq_refl eq_refl (or_introl eq_refl) Hcons) as [Hv _].
  destruct (Hv ex_range {| tablet_id := 10; partition_id := 100 |} (or_introl eq_refl)
              eq_refl eq_refl) as [Hk Hl].
  split; [exact Hk | exact Hl].
Defined.

End ScanPlanProofs.

Module ScanLimitProofs.

Import ScanPlan ScanLimit.

Lemma checked_some z v : checked z = Some v -> v = z.
Proof. unfold checked. destruct (in_int64 z); intros H; inversion H; reflexivity. Qed.

(** The contribution of one node, when its arithmetic is defined. *)
Lemma physical_limit_term_value chunk_size dop sn v :
  0 < sn_limit sn -> 0 < chunk_size ->
  physical_limit_term chunk_size dop sn = Some v ->
  v = (sn_limit sn + chunk_size - 1) / chunk_size * chunk_size * dop
      * sn_io_tasks_per_scan_operator sn.
Proof.
  intros Hl Hc. unfold physical_limit_term, add64, sub64, mul64, div64.
  destruct (checked (sn_limit sn + chunk_size)) as [t1|] eqn:E1; [|discriminate].
  apply checked_some in E1. subst t1.
  destruct (checked (sn_limit sn + chunk_size - 1)) as [t2|] eqn:E2; [|discriminate].
  apply checked_some in E2. subst t2.
  assert (Hc0 : Z.eqb chunk_size 0 = false) by (apply Z.eqb_neq; lia). rewrite Hc0.
  destruct (checked (Z.quot (sn_limit sn + chunk_size - 1) chunk_size)) as [q|] eqn:E3;
    [|discriminate].
  apply checked_some in E3. subst q.
  rewrite Z.quot_div_nonneg by lia.
  destruct (checked ((sn_limit sn + chunk_size - 1) / chunk_size * chunk_size)) as [nl|] eqn:E4;
    [|discriminate].
  apply checked_some in E4. subst nl.
  destruct (checked ((sn_limit sn + chunk_size - 1) / chunk_size * chunk_size * dop)) as [p1|] eqn:E5;
    [|discriminate].
  apply checked_some in E5. subst p1.
  intros H. apply checked_some in H. exact H.
Qed.

(** [(limit + c - 1) / c] is the ceiling of [limit / c]. *)
Lemma normalized_limit_is_ceiling limit c :
  0 < limit -> 0 < c ->
  ((limit + c - 1) / c - 1) * c < limit <= (limit + c - 1) / c * c.
Proof.
  intros Hl Hc.
  pose proof (Z.div_mod (limit + c - 1) c ltac:(lia)) as Hdm.
  pose proof (Z.mod_pos_bound (limit + c - 1) c Hc) as Hb.
  set (q := (limit + c - 1) / c) in *. set (r := (limit + c - 1) mod c) in *.
  nia.
Qed.

Lemma scan_limit_loop_spec chunk_size dop nodes l0 p0 l p :
  0 < chunk_size ->
  scan_limit_loop chunk_size dop nodes l0 p0 = Some (l, p) ->
  (Forall (fun sn => 0 < sn_limit sn) nodes ->
     l = l0 + fold_right (fun sn acc => sn_limit sn + acc) 0 nodes /\
     p = p0 + fold_right (fun sn acc =>
                            (sn_limit sn + chunk_size - 1) / chunk_size * chunk_size * dop
                            * sn_io_tasks_per_scan_operator sn + acc) 0 nodes) /\
  (forall pre sn post, nodes = pre ++ sn :: post -> Forall (fun sn => 0 < sn_limit sn) pre ->
     sn_limit sn <= 0 ->
     l = -1 /\
     p = p0 + fold_right (fun sn acc =>
                            (sn_limit sn + chunk_size - 1) / chunk_size * chunk_size * dop
                            * sn_io_tasks_per_scan_operator sn + acc) 0 pre).
Proof.
  intros Hc. revert l0 p0.
  induction nodes as [|n nodes IH]; intros l0 p0 H; simpl in H.
  - injection H as <- <-. split.
    + intros _. simpl. lia.
    + intros pre sn post Heq. destruct pre; discriminate.
  - destruct (0 <? sn_limit n) eqn:Hpos.
    + apply Z.ltb_lt in Hpos.
      unfold add64 at 1 in H.
      destruct (checked (l0 + sn_limit n)) as [l1|] eqn:E1; [|discriminate].
      apply checked_some in E1. subst l1.
      destruct (physical_limit_term chunk_size dop n) as [t|] eqn:Et; [|discriminate].
      apply (physical_limit_term_value _ _ _ _ Hpos Hc) in Et. subst t.
      unfold add64 at 1 in H.
      destruct (checked (p0 + _)) as [p1|] eqn:E2; [|discriminate].
      apply checked_some in E2. subst p1.
      destruct (IH _ _ H) as [IH1 IH2]. split.
      * intros Hall. inversion Hall as [|? ? _ Hall']; subst.
        destruct (IH1 Hall') as [-> ->]. simpl. lia.
      * intros pre sn post Heq Hpre Hsn. destruct pre as [|m pre].
        -- injection Heq as -> _. lia.
        -- injection Heq as -> Heq. inversion Hpre as [|? ? _ Hpre']; subst.
           destruct (IH2 pre sn post eq_refl Hpre' Hsn) as [-> ->]. simpl. lia.
    + apply Z.ltb_ge in Hpos. injection H as <- <-. split.
      * intros Hall. inversion Hall; subst. lia.
      * intros pre sn post Heq Hpre Hsn. split; [reflexivity|].
        destruct pre as [|m pre].
        -- simpl. lia.
        -- injection Heq as -> _. inversion Hpre; subst. lia.
Qed.

(** C4: when the signed 64-bit arithmetic of lines 449-474 is defined
    (no overflow), with chunk size [c > 0] and dop [d]: if every scan node
    has a positive limit, the logical limit is the sum of the limits and
    each node adds [((limit + c - 1) / c) * c * d * io_tasks] to the
    physical limit, where [(limit + c - 1) / c] is [ceil(limit / c)]; if
    some node has no positive limit, the logical limit is -1 and with a
    positive group ceiling the scan limit is the ceiling; with a positive
    ceiling the scan limit is [max(ceiling, physical)] when
    [0 <= logical <= ceiling] and the ceiling otherwise. *)
Theorem scan_limit_spec chunk_size dop big_query_scan_rows_limit nodes scan_limit
    logical physical scan_limit' :
  0 < chunk_size ->
  prepare_scan_limit chunk_size dop big_query_scan_rows_limit nodes scan_limit =
    Some (logical, physical, scan_limit') ->
  (Forall (fun sn => 0 < sn_limit sn) nodes ->
     logical = fold_right (fun sn acc => sn_limit sn + acc) 0 nodes /\
     physical = fold_right (fun sn acc =>
                  (sn_limit sn + chunk_size - 1) / chunk_size * chunk_size * dop
                  * sn_io_tasks_per_scan_operator sn + acc) 0 nodes) /\
  (forall sn, 0 < sn_limit sn ->
     let q := (sn_limit sn + chunk_size - 1) / chunk_size in
     (q - 1) * chunk_size < sn_limit sn <= q * chunk_size) /\
  ((exists sn, In sn nodes /\ sn_limit sn <= 0) ->
     logical = -1 /\ (0 < big_query_scan_rows_limit -> scan_limit' = Some big_query_scan_rows_limit)) /\
  (0 < big_query_scan_rows_limit ->
     scan_limit' =
       Some (if (0 <=? logical) && (logical <=? big_query_scan_rows_limit)
             then Z.max big_query_scan_rows_limit physical
             else big_query_scan_rows_limit)).
Proof.
  intros Hc H. unfold prepare_scan_limit in H.
  destruct (scan_limit_loop chunk_size dop nodes 0 0) as [[l p]|] eqn:Hl; [|discriminate].
  injection H as <- <- <-. simpl.
  destruct (scan_limit_loop_spec _ _ _ _ _ _ _ Hc Hl) as [Hall Hsome].
  assert (Hblend : 0 < big_query_scan_rows_limit ->
            blend_scan_limit big_query_scan_rows_limit l p scan_limit =
            Some (if (0 <=? l) && (l <=? big_query_scan_rows_limit)
                  then Z.max big_query_scan_rows_limit p else big_query_scan_rows_limit)).
  { intros Hb. unfold blend_scan_limit. apply Z.ltb_lt in Hb. rewrite Hb.
    destruct ((0 <=? l) && (l <=? big_query_scan_rows_limit)); reflexivity. }
  split; [|split; [|split]].
  - intros Hpos. destruct (Hall Hpos) as [-> ->]. lia.
  - intros sn Hsn. apply normalized_limit_is_ceiling; assumption.
  - intros Hex.
    (* the first node without a positive limit *)
    assert (Hfirst : exists pre sn post, nodes = pre ++ sn :: post /\
                       Forall (fun sn => 0 < sn_limit sn) pre /\ sn_limit sn <= 0).
    { clear -Hex. induction nodes as [|m nodes IH].
      - destruct Hex as (sn & [] & _).
      - destruct (Z_lt_le_dec 0 (sn_limit m)) as [Hm|Hm].
        + destruct Hex as (sn & [<- | Hin] & Hsn); [lia|].
          destruct (IH (ex_intro _ sn (conj Hin Hsn))) as (pre & sn' & post & -> & Hpre & Hsn').
          exists (m :: pre), sn', post. split; [reflexivity | split; [constructor; assumption | exact Hsn']].
        + exists [], m, nodes. split; [reflexivity | split; [constructor | exact Hm]]. }
    destruct Hfirst as (pre & sn & post & Heq & Hpre & Hsn).
    destruct (Hsome pre sn post Heq Hpre Hsn) as [-> _]. split; [reflexivity|].
    intros Hb. rewrite (Hblend Hb). reflexivity.
  - exact Hblend.
Qed.

(** A node of limit 5 with chunk size 4096, dop 4 and 2 io tasks scans up
    to 4096 * 4 * 2 rows, blended with a ceiling of 10000 rows. *)
Lemma scan_limit_spec_witness :
  0 < 4096 /\
  prepare_scan_limit 4096 4 10000 [{| sn_id := 1; sn_limit := 5; sn_io_tasks_per_scan_operator := 2 |}] None =
    Some (5, 32768, Some 32768) /\
  5 = fold_right (fun sn acc => sn_limit sn + acc) 0
        [{| sn_id := 1; sn_limit := 5; sn_io_tasks_per_scan_operator := 2 |}].
Proof.
  assert (H : prepare_scan_limit 4096 4 10000
                [{| sn_id := 1; sn_limit := 5; sn_io_tasks_per_scan_operator := 2 |}] None =
              Some (5, 32768, Some 32768)) by reflexivity.
  split; [lia | split; [exact H |]].
  destruct (scan_limit_spec 4096 4 10000 _ None 5 32768 (Some 32768) ltac:(lia) H) as [Hall _].
  apply Hall. repeat constructor.
Defined.

End ScanLimitProofs.

Module AdaptiveProofs.

Import Adaptive.

Lemma group_lookup_emplace groups leader p k :
  group_lookup (group_emplace_back groups leader p) k =
  if Nat.eqb k leader
  then Some (match group_lookup groups leader with Some ps => ps | None => [] end ++ [p])
  else group_lookup groups k.
Proof.
  induction groups as [|[l ps] rest IH]; simpl.
  - destruct (Nat.eqb k leader); reflexivity.
  - destruct (Nat.eqb leader l) eqn:Hll; simpl.
    + apply Nat.eqb_eq in Hll. subst l.
      destruct (Nat.eqb k leader); reflexivity.
    + rewrite IH. destruct (Nat.eqb k leader) eqn:Hk; [|reflexivity].
      apply Nat.eqb_eq in Hk. subst k. rewrite Hll. reflexivity.
Qed.

Lemma group_lookup_none_notin groups k : group_lookup groups k = None -> ~ In k (map fst groups).
Proof.
  induction groups as [|[l ps] rest IH]; simpl; [tauto|].
  destruct (Nat.eqb k l) eqn:E; [discriminate|]. apply Nat.eqb_neq in E.
  intros H [->|Hin]; [congruence | exact (IH H Hin)].
Qed.

Lemma group_keys_emplace groups leader p :
  NoDup (map fst groups) -> NoDup (map fst (group_emplace_back groups leader p)).
Proof.
  induction groups as [|[l ps] rest IH]; simpl; intros Hnd.
  - apply NoDup_singleton.
  - inversion Hnd as [|? ? Hnotin Hnd']; subst.
    destruct (Nat.eqb leader l) eqn:Hll; simpl; constructor; try assumption.
    + apply Nat.eqb_neq in Hll. intros Hin. apply list_elem_of_In in Hin.
      assert (Hsub : forall g, In l (map fst (group_emplace_back g leader p)) ->
                               l = leader \/ In l (map fst g)).
      { clear. induction g as [|[l' ps'] g IHg]; simpl.
        - intros [H|[]]. left; congruence.
        - destruct (Nat.eqb leader l'); simpl; intros [H|H]; try (right; left; exact H);
            [right; right; exact H|].
          destruct (IHg H) as [H'|H']; [left; exact H' | right; right; exact H']. }
      destruct (Hsub rest Hin) as [H|H]; [congruence | apply Hnotin, list_elem_of_In, H].
    + apply IH. exact Hnd'.
Qed.

Lemma in_groups_lookup groups k ps :
  NoDup (map fst groups) -> In (k, ps) groups <-> group_lookup groups k = Some ps.
Proof.
  induction groups as [|[l ps'] rest IH]; simpl; intros Hnd; [split; [tauto|discriminate]|].
  inversion Hnd as [|? ? Hnotin Hnd']; subst.
  destruct (Nat.eqb k l) eqn:E.
  - apply Nat.eqb_eq in E. subst l. split.
    + intros [H|H]; [congruence|].
      exfalso. apply Hnotin, list_elem_of_In. apply (in_map fst) in H. exact H.
    + intros H. injection H as ->. left; reflexivity.
  - apply Nat.eqb_neq in E. rewrite <- (IH Hnd'). split.
    + intros [H|H]; [congruence | exact H].
    + intros H; right; exact H.
Qed.

Section Groups.

Variable adaptive_blocking_event : OpId -> option EventId.
Variable group_dependent_pipelines : OpId -> list PipelineId.
Variable pipeline_event : PipelineId -> EventId.

Local Abbreviation deferred pipelines leader :=
  (map pipeline_id
     (List.filter (fun p => negb (is_adaptive_group_initial_active (source_operator_factory p))
                       && Nat.eqb (group_leader (source_operator_factory p)) leader) pipelines)).

Lemma fold_pipeline_step pipelines :
  let '(pls, groups) := fold_left pipeline_step pipelines ([], []) in
  pls = map (fun p => if is_adaptive_group_initial_active (source_operator_factory p)
                      then instantiate_drivers p else p) pipelines /\
  NoDup (map fst groups) /\
  forall k, group_lookup groups k = match deferred pipelines k with [] => None | ps => Some ps end.
Proof.
  induction pipelines as [|p pipelines IH] using rev_ind.
  - simpl. split; [reflexivity | split; [constructor | reflexivity]].
  - rewrite fold_left_app. simpl.
    destruct (fold_left pipeline_step pipelines ([], [])) as [pls groups].
    destruct IH as (Hpls & Hnd & Hlk).
    unfold pipeline_step. simpl.
    destruct (is_adaptive_group_initial_active (source_operator_factory p)) eqn:Hact; simpl.
    + split; [rewrite Hpls, map_app; simpl; rewrite Hact; reflexivity|]. split; [exact Hnd|].
      intros k. rewrite List.filter_app, map_app. simpl. rewrite ?Hact. simpl.
      rewrite app_nil_r. apply Hlk.
    + split; [rewrite Hpls, map_app; simpl; rewrite Hact; reflexivity|].
      split; [apply group_keys_emplace; exact Hnd|].
      intros k. rewrite List.filter_app, map_app. simpl. rewrite ?Hact. simpl.
      rewrite group_lookup_emplace, Nat.eqb_sym.
      destruct (Nat.eqb (group_leader (source_operator_factory p)) k) eqn:Hk; simpl.
      * apply Nat.eqb_eq in Hk. subst k. rewrite Hlk.
        destruct (deferred pipelines (group_leader (source_operator_factory p))); reflexivity.
      * rewrite app_nil_r. apply Hlk.
Qed.

Lemma group_initialize_event_shape leader ps :
  group_initialize_event adaptive_blocking_event group_dependent_pipelines pipeline_event leader ps =
  {| event_pipelines := ps;
     dependencies := match adaptive_blocking_event leader with Some b => [b] | None => [] end
                     ++ map pipeline_event (group_dependent_pipelines leader) |}.
Proof.
  unfold group_initialize_event.
  assert (Hgen : forall deps ev, event_pipelines ev = ps ->
            fold_left (fun ev dp => add_dependency ev (pipeline_event dp)) deps ev =
            {| event_pipelines := ps; dependencies := dependencies ev ++ map pipeline_event deps |}).
  { induction deps as [|d deps IH]; intros ev Hev; simpl.
    - destruct ev; simpl in *; subst; rewrite app_nil_r; reflexivity.
    - rewrite IH by exact Hev. simpl. rewrite <- app_assoc. reflexivity. }
  destruct (adaptive_blocking_event leader); rewrite Hgen; reflexivity.
Qed.

Lemma events_of_groups groups :
  match groups with
  | [] => []
  | _ => create_adaptive_group_initialize_events adaptive_blocking_event
           group_dependent_pipelines pipeline_event groups
  end =
  map (fun lp => (fst lp, group_initialize_event adaptive_blocking_event
                            group_dependent_pipelines pipeline_event (fst lp) (snd lp))) groups.
Proof. destruct groups; reflexivity. Qed.

(** C3: a pipeline whose source is not initially active is left as built
    (no driver is instantiated for it, so a pipeline built without drivers
    still has none); the deferred pipelines are grouped per leader, each
    leader with at least one deferred pipeline gets exactly one
    group-initialize event, collecting the leader's deferred pipelines in
    order and depending on the leader's adaptive blocking event (when
    present) then on the event of each pipeline the leader depends on; a
    leader without deferred pipelines gets no event. *)
Theorem adaptive_group_initialize_events_spec (pipelines : list Pipeline) :
  let res := prepare_adaptive_groups adaptive_blocking_event group_dependent_pipelines
               pipeline_event pipelines in
  (forall i p, nth_error pipelines i = Some p ->
     is_adaptive_group_initial_active (source_operator_factory p) = false ->
     nth_error (fst res) i = Some p) /\
  (Forall (fun p => drivers p = []) pipelines ->
   forall p, In p (fst res) ->
     is_adaptive_group_initial_active (source_operator_factory p) = false -> drivers p = []) /\
  NoDup (map fst (snd res)) /\
  (forall leader, In leader (map fst (snd res)) <->
     exists p, In p pipelines /\
       is_adaptive_group_initial_active (source_operator_factory p) = false /\
       group_leader (source_operator_factory p) = leader) /\
  (forall leader ev, In (leader, ev) (snd res) ->
     ev = {| event_pipelines := deferred pipelines leader;
             dependencies :=
               match adaptive_blocking_event leader with Some b => [b] | None => [] end
               ++ map pipeline_event (group_dependent_pipelines leader) |}).
Proof.
  cbv zeta. unfold prepare_adaptive_groups.
  pose proof (fold_pipeline_step pipelines) as Hf.
  destruct (fold_left pipeline_step pipelines ([], [])) as [pls groups].
  destruct Hf as (Hpls & Hnd & Hlk). simpl. rewrite events_of_groups.
  split; [|split; [|split; [|split]]].
  - intros i p Hi Hact. rewrite Hpls, nth_error_map, Hi. simpl. rewrite Hact. reflexivity.
  - intros Hall p Hin Hact. rewrite Hpls in Hin. apply in_map_iff in Hin as (q & Hq & Hinq).
    destruct (is_adaptive_group_initial_active (source_operator_factory q)) eqn:Hq'.
    + subst p. simpl in Hact. rewrite Hq' in Hact. discriminate.
    + subst p. rewrite Forall_forall in Hall. apply Hall, list_elem_of_In, Hinq.
  - rewrite map_map. simpl. exact Hnd.
  - intros leader. rewrite map_map. simpl.
    assert (Hfst : map (fun x : OpId * list PipelineId => fst x) groups = map fst groups)
      by reflexivity.
    rewrite Hfst, in_map_iff. split.
    + intros ([l ps] & Hl & Hin). simpl in Hl. subst l.
      apply (in_groups_lookup _ _ _ Hnd) in Hin. rewrite Hlk in Hin.
      destruct (deferred pipelines leader) as [|pid rest] eqn:Hd; [discriminate|].
      assert (Hpid : In pid (deferred pipelines leader)) by (rewrite Hd; left; reflexivity).
      apply in_map_iff in Hpid as (p & _ & Hp).
      apply List.filter_In in Hp as [Hp Hc]. apply andb_true_iff in Hc as [Ha Hl].
      exists p. split; [exact Hp|]. split.
      * destruct (is_adaptive_group_initial_active (source_operator_factory p)); [discriminate|reflexivity].
      * apply Nat.eqb_eq, Hl.
    + intros (p & Hp & Ha & Hl).
      assert (Hne : In (pipeline_id p) (deferred pipelines leader)).
      { apply in_map, List.filter_In. split; [exact Hp|]. rewrite Ha, Hl, Nat.eqb_refl. reflexivity. }
      destruct (deferred pipelines leader) as [|pid rest] eqn:Hd; [destruct Hne|].
      exists (leader, pid :: rest). split; [reflexivity|].
      apply (in_groups_lookup _ _ _ Hnd). rewrite Hlk, Hd. reflexivity.
  - intros leader ev Hin. apply in_map_iff in Hin as ([l ps] & Heq & Hin).
    simpl in Heq. injection Heq as -> <-.
    apply (in_groups_lookup _ _ _ Hnd) in Hin. rewrite Hlk in Hin.
    rewrite group_initialize_event_shape. f_equal.
    destruct (deferred pipelines leader); [discriminate|]. injection Hin as <-. reflexivity.
Qed.

End Groups.

End AdaptiveProofs.

Module ExecutorProofs.

Import Adaptive Executor Examples.

Section PrepareFacts.

Variable DEFAULT_EXPIRE_SECONDS : Z.
Variable build_pipelines : Request -> result (list Pipeline).
Variable _prepare_stream_load_pipe : Request -> result unit.
Variable adaptive_blocking_event : OpId -> option EventId.
Variable group_dependent_pipelines : OpId -> list PipelineId.
Variable pipeline_event : PipelineId -> EventId.

Local Abbreviation prepare' := (prepare DEFAULT_EXPIRE_SECONDS build_pipelines
  _prepare_stream_load_pipe adaptive_blocking_event group_dependent_pipelines pipeline_event).

(** C1 (as amended): on a fresh executor, a [prepare] for a
    (query_id, fragment_instance_id) already registered fails without
    changing any state, registry, query contexts or driver limiter
    alike: with [DuplicateRpcInvocation] once the process memory
    pre-check passes, and with [ResourceExhausted] when that pre-check,
    which runs first, fails. *)
Theorem duplicate_prepare_rejected_state_unchanged req s qc fc :
  executor s = new_executor ->
  query_context_mgr (env s) !! query_id req = Some qc ->
  fragment_mgr qc !! fragment_instance_id req = Some fc ->
  prepare' req s =
    (Err (if Z.ltb (query_pool_limit (env s)) (query_pool_consumption (env s))
          then ResourceExhausted else DuplicateRpcInvocation), s).
Proof.
  intros Hex Hq Hf. unfold prepare, prepare_body, bind at 1, check_mem_limit.
  destruct (Z.ltb (query_pool_limit (env s)) (query_pool_consumption (env s))).
  - unfold _fail_cleanup. rewrite Hex. reflexivity.
  - unfold bind at 1, _prepare_query_ctx, fragment_registered. rewrite Hq, Hf.
    unfold _fail_cleanup. rewrite Hex. reflexivity.
Qed.

Local Abbreviation grouped pipelines := (fst (prepare_adaptive_groups adaptive_blocking_event
  group_dependent_pipelines pipeline_event pipelines)).

Lemma fragment_mgr_setup req now_ns qc :
  fragment_mgr (setup_query_ctx DEFAULT_EXPIRE_SECONDS req now_ns qc) = fragment_mgr qc.
Proof. unfold setup_query_ctx. destruct (instances_number req); reflexivity. Qed.

Lemma fragment_mgr_not_registered e qid fid :
  fragment_registered e qid fid = false ->
  fragment_mgr (get_or_register (query_context_mgr e) qid) !! fid = None.
Proof.
  unfold fragment_registered, get_or_register. simpl.
  destruct (query_context_mgr e !! qid) as [qc|]; simpl; [|reflexivity].
  destruct (fragment_mgr qc !! fid); congruence.
Qed.

(** C2: on a fresh executor, [prepare] asks the driver limiter for at
    most one token, sized [total_dop] of the pipelines after adaptive
    grouping (deferred pipelines included), and asks for exactly that one
    once the memory pre-check, the duplicate check and the pipeline building
    passed. When that acquisition fails, [prepare] returns
    [ResourceExhausted], the failure cleanup has run (no fragment context
    left, no lane held) and the fragment is not in the query registry. When
    [prepare] succeeds, the acquisition succeeded and the fragment is
    registered. *)
Theorem admission_token_requested_once req s :
  executor s = new_executor ->
  (try_acquire_requests (env (snd (prepare' req s))) = try_acquire_requests (env s) \/
   exists pipelines, build_pipelines req = Ok pipelines /\
     try_acquire_requests (env (snd (prepare' req s))) =
       try_acquire_requests (env s) ++ [total_dop (grouped pipelines)]) /\
  (forall pipelines,
     query_pool_consumption (env s) <= query_pool_limit (env s) ->
     fragment_registered (env s) (query_id req) (fragment_instance_id req) = false ->
     build_pipelines req = Ok pipelines ->
     try_acquire_requests (env (snd (prepare' req s))) =
       try_acquire_requests (env s) ++ [total_dop (grouped pipelines)] /\
     (max_num_drivers (env s) < num_total_drivers (env s) + total_dop (grouped pipelines) ->
        fst (prepare' req s) = Err ResourceExhausted /\
        _fragment_ctx (executor (snd (prepare' req s))) = None /\
        num_total_drivers (env (snd (prepare' req s))) = num_total_drivers (env s) /\
        fragment_registered (env (snd (prepare' req s))) (query_id req)
          (fragment_instance_id req) = false)) /\
  (fst (prepare' req s) = Ok tt ->
     exists pipelines, build_pipelines req = Ok pipelines /\
       try_acquire_requests (env (snd (prepare' req s))) =
         try_acquire_requests (env s) ++ [total_dop (grouped pipelines)] /\
       num_total_drivers (env s) + total_dop (grouped pipelines) <= max_num_drivers (env s) /\
       num_total_drivers (env (snd (prepare' req s))) =
         num_total_drivers (env s) + total_dop (grouped pipelines) /\
       fragment_registered (env (snd (prepare' req s))) (query_id req)
         (fragment_instance_id req) = true).
Proof.
  intros Hex. remember (prepare' req s) as r eqn:Hr.
  unfold prepare, prepare_body, bind, check_mem_limit, _prepare_query_ctx,
    _prepare_fragment_ctx, modify, lift, _prepare_pipeline_driver, get_fragment_ctx,
    set_fragment_ctx, try_acquire, bind, modify in Hr.
  simpl in Hr.
  destruct (Z.ltb (query_pool_limit (env s)) (query_pool_consumption (env s))) eqn:Hmem.
  { apply Z.ltb_lt in Hmem. simpl in Hr. subst r. unfold _fail_cleanup. rewrite Hex. simpl.
    split; [left; reflexivity|]. split; [intros; lia|]. intros Hc; inversion Hc. }
  simpl in Hr.
  revert Hr.
  remember (setup_query_ctx DEFAULT_EXPIRE_SECONDS req (now (env s))
              (get_or_register (query_context_mgr (env s)) (query_id req))) as qc1 eqn:Hqc1.
  intros Hr.
  destruct (fragment_registered (env s) (query_id req) (fragment_instance_id req)) eqn:Hreg.
  { simpl in Hr. subst r. unfold _fail_cleanup. rewrite Hex. simpl.
    split; [left; reflexivity|]. split; [intros; congruence|]. intros Hc; inversion Hc. }
  assert (Hnone : fragment_mgr qc1 !! fragment_instance_id req = None).
  { subst qc1. rewrite fragment_mgr_setup. exact (fragment_mgr_not_registered _ _ _ Hreg). }
  clear Hqc1.
  destruct (build_pipelines req) as [pipelines|e] eqn:Hbuild.
  2:{ simpl in Hr. subst r. unfold _fail_cleanup. simpl. rewrite lookup_insert_eq. simpl.
      split; [left; reflexivity|]. split; [intros; congruence|]. intros Hc; inversion Hc. }
  simpl in Hr.
  destruct (Z.ltb (max_num_drivers (env s))
              (num_total_drivers (env s) + total_dop (grouped pipelines))) eqn:Hacq.
  { apply Z.ltb_lt in Hacq. simpl in Hr. subst r.
    unfold _fail_cleanup, release_token. simpl. rewrite lookup_insert_eq. simpl.
    split; [right; exists pipelines; split; reflexivity|].
    split; [|intros Hc; inversion Hc].
    intros p' _ _ Hp. inversion Hp; subst p'. split; [reflexivity|]. intros _.
    split; [reflexivity|]. split; [reflexivity|]. split; [reflexivity|].
    unfold fragment_registered. simpl. rewrite lookup_insert_eq. simpl.
    rewrite Hnone. reflexivity. }
  apply Z.ltb_ge in Hacq. simpl in Hr.
  destruct (_prepare_stream_load_pipe req) as [u|e] eqn:Hstream.
  2:{ simpl in Hr. subst r. unfold _fail_cleanup, release_token. simpl.
      rewrite lookup_insert_eq. simpl.
      split; [right; exists pipelines; split; reflexivity|].
      split; [|intros Hc; inversion Hc].
      intros p' _ _ Hp. inversion Hp; subst p'. split; [reflexivity|]. lia. }
  simpl in Hr. unfold register_ctx in Hr. simpl in Hr. rewrite lookup_insert_eq in Hr.
  simpl in Hr. rewrite Hnone in Hr. subst r. simpl.
  split; [right; exists pipelines; split; reflexivity|].
  split.
  - intros p' _ _ Hp. inversion Hp; subst p'. split; [reflexivity|]. lia.
  - intros _. exists pipelines. split; [reflexivity|]. split; [reflexivity|].
    split; [lia|]. split; [reflexivity|].
    unfold fragment_registered. simpl. rewrite lookup_insert_eq. simpl.
    rewrite lookup_insert_eq. reflexivity.
Qed.

End PrepareFacts.

Section ExecuteFacts.

Variable driver_prepare : Driver -> result unit.

Local Abbreviation active_drivers pipelines :=
  (flat_map drivers (List.filter (fun p => is_adaptive_group_initial_active
                                             (source_operator_factory p)) pipelines)).

Lemma prepare_drivers_all_ok ds calls :
  (forall d, In d ds -> driver_prepare d = Ok tt) ->
  prepare_drivers driver_prepare ds calls = (Ok tt, calls ++ map CallPrepare ds).
Proof.
  revert calls. induction ds as [|d ds IH]; intros calls Hok; simpl.
  - rewrite app_nil_r. reflexivity.
  - rewrite (Hok d (or_introl eq_refl)). rewrite IH by (intros; apply Hok; right; assumption).
    rewrite <- app_assoc. reflexivity.
Qed.

Lemma prepare_drivers_first_error pre d post e calls :
  (forall d', In d' pre -> driver_prepare d' = Ok tt) ->
  driver_prepare d = Err e ->
  prepare_drivers driver_prepare (pre ++ d :: post) calls =
    (Err e, calls ++ map CallPrepare (pre ++ [d])).
Proof.
  revert calls. induction pre as [|d0 pre IH]; intros calls Hok He; simpl.
  - rewrite He. reflexivity.
  - rewrite (Hok d0 (or_introl eq_refl)).
    rewrite IH by (intros; try apply Hok; try right; assumption).
    rewrite <- app_assoc. reflexivity.
Qed.

Lemma iterate_prepare_all_ok pipelines calls :
  (forall d, In d (active_drivers pipelines) -> driver_prepare d = Ok tt) ->
  iterate_active_drivers_prepare driver_prepare pipelines calls =
    (Ok tt, calls ++ map CallPrepare (active_drivers pipelines)).
Proof.
  revert calls. induction pipelines as [|p ps IH]; intros calls Hok; simpl in *.
  - rewrite app_nil_r. reflexivity.
  - destruct (is_adaptive_group_initial_active (source_operator_factory p)); simpl in *.
    + rewrite prepare_drivers_all_ok by (intros; apply Hok, in_or_app; left; assumption).
      rewrite IH by (intros; apply Hok, in_or_app; right; assumption).
      rewrite map_app, app_assoc. reflexivity.
    + apply IH. exact Hok.
Qed.

Lemma iterate_prepare_first_error pipelines pre d post e calls :
  active_drivers pipelines = pre ++ d :: post ->
  (forall d', In d' pre -> driver_prepare d' = Ok tt) ->
  driver_prepare d = Err e ->
  iterate_active_drivers_prepare driver_prepare pipelines calls =
    (Err e, calls ++ map CallPrepare (pre ++ [d])).
Proof.
  revert pre calls. induction pipelines as [|p ps IH]; intros pre calls Hsplit Hok He; simpl in *.
  - destruct pre; discriminate.
  - destruct (is_adaptive_group_initial_active (source_operator_factory p)); simpl in *.
    + destruct (List.app_eq_app _ _ _ _ Hsplit) as [l [[Hdp Hrest] | [Hpre Hrest]]].
      * destruct l as [|d1 l].
        -- rewrite app_nil_r in Hdp. subst pre.
           rewrite prepare_drivers_all_ok by exact Hok.
           simpl in Hrest.
           rewrite (IH [] (calls ++ map CallPrepare (drivers p)) (eq_sym Hrest)
                      ltac:(simpl; tauto) He).
           simpl. rewrite map_app, app_assoc. reflexivity.
        -- simpl in Hrest. injection Hrest as <- Hpost.
           rewrite Hdp, (prepare_drivers_first_error pre _ l e) by assumption. reflexivity.
      * subst pre. rewrite prepare_drivers_all_ok by (intros; apply Hok, in_or_app; left; assumption).
        rewrite (IH l _ Hrest) by (intros; try apply Hok; try (apply in_or_app; right);
                                             assumption).
        rewrite !map_app, !app_assoc. reflexivity.
    + apply IH; assumption.
Qed.

Lemma iterate_submit_calls pipelines calls :
  iterate_active_drivers_submit pipelines calls = calls ++ map CallSubmit (active_drivers pipelines).
Proof.
  revert calls. induction pipelines as [|p ps IH]; intros calls; simpl.
  - rewrite app_nil_r. reflexivity.
  - destruct (is_adaptive_group_initial_active (source_operator_factory p)); simpl.
    + rewrite IH, map_app, app_assoc. reflexivity.
    + apply IH.
Qed.

(** C9: [execute] goes over the drivers of the pipelines whose source is
    initially active in its adaptive group, in order. When each of them
    prepares, it prepares them all and then submits them all, and nothing
    else. When one fails, the drivers up to and including it have been
    prepared, none submitted, the error is returned, and the failure
    cleanup ([_fail_cleanup(true)]) runs on the resulting state. Drivers of
    deferred pipelines appear in no call. *)
Theorem execute_prepares_then_submits_active_drivers s fc :
  _fragment_ctx (executor s) = Some fc ->
  let AD := active_drivers (fc_pipelines fc) in
  let old := driver_calls (env s) in
  ((forall d, In d AD -> driver_prepare d = Ok tt) ->
   execute driver_prepare s =
     (Ok tt, set_env s (set_driver_calls (env s)
                          (old ++ map CallPrepare AD ++ map CallSubmit AD)))) /\
  (forall pre d post e,
     AD = pre ++ d :: post ->
     (forall d', In d' pre -> driver_prepare d' = Ok tt) ->
     driver_prepare d = Err e ->
     execute driver_prepare s =
       (Err e, _fail_cleanup true
                 (set_env s (set_driver_calls (env s) (old ++ map CallPrepare (pre ++ [d])))))).
Proof.
  intros Hfc AD old. unfold execute. rewrite Hfc. split.
  - intros Hok. rewrite iterate_prepare_all_ok by exact Hok.
    rewrite iterate_submit_calls, <- app_assoc. reflexivity.
  - intros pre d post e Hsplit Hok He.
    rewrite (iterate_prepare_first_error _ pre d post e) by assumption. reflexivity.
Qed.

End ExecuteFacts.

(** The fragment (1,2) of query (1,1) is registered and memory is within
    the limit: a second [prepare] reports the duplicate. *)
Lemma duplicate_prepare_rejected_state_unchanged_witness :
  fst (prepare 300 (fun _ => Ok []) (fun _ => Ok tt) (fun _ => None) (fun _ => []) (fun p => p)
         ex_request {| env := ex_env 0 8 {[ (1, 1) := ex_query_ctx true ]};
                       executor := new_executor |}) = Err DuplicateRpcInvocation.
Proof.
  rewrite (duplicate_prepare_rejected_state_unchanged 300 (fun _ => Ok []) (fun _ => Ok tt)
             (fun _ => None) (fun _ => []) (fun p => p) ex_request
             {| env := ex_env 0 8 {[ (1, 1) := ex_query_ctx true ]}; executor := new_executor |}
             (ex_query_ctx true) (ex_fragment_ctx []) eq_refl
             (lookup_singleton_eq _ _) (lookup_singleton_eq _ _)).
  reflexivity.
Defined.

(** The same duplicate [prepare] while the query pool is over its limit
    (200 of 100 bytes) fails with [ResourceExhausted], not with
    [DuplicateRpcInvocation]: the memory pre-check runs first. *)
Lemma duplicate_prepare_over_memory_limit :
  fst (prepare 300 (fun _ => Ok []) (fun _ => Ok tt) (fun _ => None) (fun _ => []) (fun p => p)
         ex_request {| env := ex_env 200 8 {[ (1, 1) := ex_query_ctx true ]};
                       executor := new_executor |}) = Err ResourceExhausted /\
  fst (prepare 300 (fun _ => Ok []) (fun _ => Ok tt) (fun _ => None) (fun _ => []) (fun p => p)
         ex_request {| env := ex_env 200 8 {[ (1, 1) := ex_query_ctx true ]};
                       executor := new_executor |}) <> Err DuplicateRpcInvocation.
Proof. vm_compute. split; [reflexivity | discriminate]. Qed.

(** Scenario C: a budget of 2 lanes and a fragment of 4 lanes; [prepare]
    requests one token of 4 lanes, fails with [ResourceExhausted], and the
    fragment is not registered afterwards. *)
Lemma admission_token_requested_once_witness :
  try_acquire_requests (env (snd (prepare 300 (fun _ => Ok [ex_pipeline 4]) (fun _ => Ok tt)
         (fun _ => None) (fun _ => []) (fun p => p)
         ex_request {| env := ex_env 0 2 ∅; executor := new_executor |}))) = [4] /\
  fst (prepare 300 (fun _ => Ok [ex_pipeline 4]) (fun _ => Ok tt) (fun _ => None) (fun _ => [])
         (fun p => p) ex_request {| env := ex_env 0 2 ∅; executor := new_executor |}) =
    Err ResourceExhausted /\
  fragment_registered (env (snd (prepare 300 (fun _ => Ok [ex_pipeline 4]) (fun _ => Ok tt)
         (fun _ => None) (fun _ => []) (fun p => p)
         ex_request {| env := ex_env 0 2 ∅; executor := new_executor |}))) (1, 1) (1, 2) = false.
Proof.
  destruct (admission_token_requested_once 300 (fun _ => Ok [ex_pipeline 4]) (fun _ => Ok tt)
              (fun _ => None) (fun _ => []) (fun p => p) ex_request
              {| env := ex_env 0 2 ∅; executor := new_executor |} eq_refl) as (_ & Hacq & _).
  destruct (Hacq [ex_pipeline 4] ltac:(simpl; lia) eq_refl eq_refl) as [Hreq Hfail].
  destruct (Hfail ltac:(vm_compute; reflexivity)) as (Hr & _ & _ & Hunreg).
  split; [rewrite Hreq; reflexivity | split; [exact Hr | exact Hunreg]].
Defined.

(** One active pipeline of two drivers, both preparing: [execute] prepares
    both, then submits both. *)
Lemma execute_prepares_then_submits_active_drivers_witness :
  driver_calls (env (snd (execute (fun _ => Ok tt)
    {| env := ex_env 0 8 ∅;
       executor := {| _query_ctx := Some (1, 1);
                      _fragment_ctx := Some (ex_fragment_ctx [instantiate_drivers (ex_pipeline 2)]) |} |}))) =
  [CallPrepare {| driver_pipeline := 0; driver_sequence := 0 |};
   CallPrepare {| driver_pipeline := 0; driver_sequence := 1 |};
   CallSubmit {| driver_pipeline := 0; driver_sequence := 0 |};
   CallSubmit {| driver_pipeline := 0; driver_sequence := 1 |}].
Proof.
  destruct (execute_prepares_then_submits_active_drivers (fun _ => Ok tt)
    {| env := ex_env 0 8 ∅;
       executor := {| _query_ctx := Some (1, 1);
                      _fragment_ctx := Some (ex_fragment_ctx [instantiate_drivers (ex_pipeline 2)]) |} |}
    _ eq_refl) as [Hok _].
  rewrite (Hok (fun _ _ => eq_refl)). reflexivity.
Defined.

End ExecutorProofs.

Module KeyBytesProofs.

Import ScanPlan ScanLimit KeyBytes.

Lemma int64_bytes_le_bytes x : int64_bytes x = le_bytes 8 x 0.
Proof. reflexivity. Qed.

Lemma mod_mul_split a b c :
  0 < b -> 0 < c -> a mod (b * c) = a mod b + b * ((a / b) mod c).
Proof.
  intros Hb Hc. symmetry. apply Z.mod_unique_pos with (q := (a / b) / c).
  - pose proof (Z.mod_pos_bound a b Hb). pose proof (Z.mod_pos_bound (a / b) c Hc). nia.
  - pose proof (Z.div_mod a b ltac:(lia)). pose proof (Z.div_mod (a / b) c ltac:(lia)). nia.
Qed.

Lemma land_255 y : Z.land y 255 = y mod 256.
Proof. change 255 with (Z.ones 8). rewrite Z.land_ones by lia. reflexivity. Qed.

Lemma decode_le_bytes n x i :
  0 <= i -> decode_le (le_bytes n x i) = Z.shiftr x (8 * i) mod 2 ^ (8 * Z.of_nat n).
Proof.
  revert i. induction n as [|n IH]; intros i Hi.
  - simpl. rewrite Z.mod_1_r. reflexivity.
  - cbn [le_bytes decode_le]. rewrite IH by lia. rewrite land_255.
    set (y := Z.shiftr x (8 * i)).
    pose proof (Z.mod_pos_bound y 256 ltac:(lia)) as Hb.
    rewrite N_ascii_embedding by lia. rewrite Z2N.id by lia.
    replace (Z.shiftr x (8 * (i + 1))) with (y / 256).
    2:{ subst y. rewrite !Z.shiftr_div_pow2 by lia.
        rewrite Z.div_div by (try apply Z.pow_pos_nonneg; lia).
        change 256 with (2 ^ 8). rewrite <- Z.pow_add_r by lia. do 2 f_equal. lia. }
    replace (2 ^ (8 * Z.of_nat (S n))) with (256 * 2 ^ (8 * Z.of_nat n)).
    2:{ rewrite Nat2Z.inj_succ, Z.mul_succ_r, Z.pow_add_r by lia. lia. }
    rewrite mod_mul_split by (try apply Z.pow_pos_nonneg; lia). reflexivity.
Qed.

Lemma decode_int64_bytes x : decode_le (int64_bytes x) = x mod 2 ^ 64.
Proof. rewrite int64_bytes_le_bytes, decode_le_bytes by lia. reflexivity. Qed.

Lemma int64_mod_inj x y :
  in_int64 x = true -> in_int64 y = true -> x mod 2 ^ 64 = y mod 2 ^ 64 -> x = y.
Proof.
  unfold in_int64, INT64_MIN, INT64_MAX. rewrite !andb_true_iff, !Z.leb_le.
  intros Hx Hy Hm.
  pose proof (Z.div_mod x (2 ^ 64) ltac:(lia)). pose proof (Z.div_mod y (2 ^ 64) ltac:(lia)).
  pose proof (Z.mod_pos_bound x (2 ^ 64) ltac:(lia)).
  assert (x / 2 ^ 64 = y / 2 ^ 64) by nia. nia.
Qed.

Lemma string_append_cancel (a a' b b' : string) :
  String.length a = String.length a' -> String.append a b = String.append a' b' ->
  a = a' /\ b = b'.
Proof.
  revert a'. induction a as [|c a IH]; intros [|c' a'] Hl He; simpl in *;
    try discriminate; try (split; [reflexivity | exact He]).
  injection He as -> He. destruct (IH a' ltac:(lia) He) as [-> ->]. split; reflexivity.
Qed.

Lemma string_append_length (a b : string) :
  String.length (String.append a b) = (String.length a + String.length b)%nat.
Proof. induction a as [|c a IH]; simpl; [reflexivity | rewrite IH; reflexivity]. Qed.


(** Two internal scan ranges with [int64_t] ids get the same cache-key
    prefix only when they have the same partition id, the same region
    string and the same tablet id: the key determines all three. *)
Theorem cache_prefix_key_injective rm1 rm2 i1 i2 :
  in_int64 (partition_id i1) = true -> in_int64 (partition_id i2) = true ->
  in_int64 (tablet_id i1) = true -> in_int64 (tablet_id i2) = true ->
  prefix_value rm1 i1 = prefix_value rm2 i2 ->
  partition_id i1 = partition_id i2 /\
  FindWithDefault rm1 (partition_id i1) EmptyString =
    FindWithDefault rm2 (partition_id i2) EmptyString /\
  tablet_id i1 = tablet_id i2.
Proof.
  unfold prefix_value. intros Hp1 Hp2 Ht1 Ht2 He.
  destruct (string_append_cancel (int64_bytes (partition_id i1)) (int64_bytes (partition_id i2))
             _ _ eq_refl He) as [Hp Hrest].
  pose proof (f_equal String.length Hrest) as Hl. rewrite !string_append_length in Hl.
  change (String.length (int64_bytes (tablet_id i1))) with 8%nat in Hl.
  change (String.length (int64_bytes (tablet_id i2))) with 8%nat in Hl.
  apply string_append_cancel in Hrest as [Hr Ht]; [|lia].
  apply (f_equal decode_le) in Hp, Ht. rewrite !decode_int64_bytes in Hp, Ht.
  split; [apply int64_mod_inj; assumption|]. split; [exact Hr|].
  apply int64_mod_inj; assumption.
Qed.

End KeyBytesProofs.

(** Two scan ranges of partition 100 (region "ab"), tablet 10, against
    each other. *)
Lemma cache_prefix_key_injective_witness :
  ScanPlan.prefix_value [(100, "ab"%string)] Examples.ex_internal =
    ScanPlan.prefix_value [(100, "ab"%string)] Examples.ex_internal /\
  (100 = 100 /\ "ab"%string = "ab"%string /\ 10 = 10).
Proof.
  split; [reflexivity|].
  exact (KeyBytesProofs.cache_prefix_key_injective [(100, "ab"%string)] [(100, "ab"%string)]
           Examples.ex_internal Examples.ex_internal eq_refl eq_refl eq_refl eq_refl eq_refl).
Defined.

Module StreamLoadProofs.

Import StreamLoad.

Section PipeFacts.

Variable Ctx : Type.
Variable create : string -> Z -> string -> string -> Z -> TUniqueId -> Z -> result Ctx.
Variable put : string -> Z -> Ctx -> result unit.

Local Abbreviation load_one := (load_scan_range Ctx create put).
Local Abbreviation load_list := (load_scan_ranges Ctx create put).
Local Abbreviation load_seqs := (load_driver_seqs Ctx create put).
Local Abbreviation pipe := (_prepare_stream_load_pipe Ctx create put).
Local Abbreviation creates := (range_creates Ctx create put).

Lemma load_one_ok sr ctx calls :
  creates sr ctx -> load_one sr calls = Some (Ok ctx, calls ++ range_calls sr).
Proof.
  unfold range_creates, load_scan_range, range_calls.
  destruct (ranges (read_broker_scan_range (scan_range sr))) as [|r0 rs]; [tauto|].
  intros [Hc Hp]. rewrite Hc, Hp, <- app_assoc. reflexivity.
Qed.

Lemma load_list_app l1 l2 ctxs calls :
  load_list (l1 ++ l2) ctxs calls =
    match load_list l1 ctxs calls with
    | Some (Ok ctxs', calls') => load_list l2 ctxs' calls'
    | r => r
    end.
Proof.
  revert ctxs calls. induction l1 as [|sr l1 IH]; intros ctxs calls; simpl; [reflexivity|].
  destruct (load_one sr calls) as [[[ctx|e] calls']|]; [apply IH | reflexivity | reflexivity].
Qed.

Lemma load_seqs_flat per_driver ctxs calls :
  load_seqs per_driver ctxs calls = load_list (flat_map snd per_driver) ctxs calls.
Proof.
  revert ctxs calls. induction per_driver as [|[k srs] pd IH]; intros ctxs calls; simpl;
    [reflexivity|].
  rewrite load_list_app.
  destruct (load_list srs ctxs calls) as [[[ctxs'|e] calls']|]; [apply IH | reflexivity | reflexivity].
Qed.

Lemma load_list_all_ok srs (ctx_of : TScanRangeParams -> Ctx) ctxs calls :
  (forall sr, In sr srs -> creates sr (ctx_of sr)) ->
  load_list srs ctxs calls = Some (Ok (ctxs ++ map ctx_of srs), calls ++ flat_map range_calls srs).
Proof.
  revert ctxs calls. induction srs as [|sr srs IH]; intros ctxs calls Hok; simpl.
  - rewrite !app_nil_r. reflexivity.
  - rewrite (load_one_ok sr (ctx_of sr)) by (apply Hok; left; reflexivity).
    rewrite IH by (intros; apply Hok; right; assumption).
    rewrite <- !app_assoc. reflexivity.
Qed.

Lemma load_list_prefix_ok srs ctxs calls :
  (forall sr, In sr srs -> exists ctx, creates sr ctx) ->
  exists ctxs', load_list srs ctxs calls = Some (Ok ctxs', calls ++ flat_map range_calls srs).
Proof.
  revert ctxs calls. induction srs as [|sr srs IH]; intros ctxs calls Hok; simpl.
  - rewrite app_nil_r. eexists. reflexivity.
  - destruct (Hok sr (or_introl eq_refl)) as [ctx Hc].
    rewrite (load_one_ok sr ctx) by exact Hc.
    destruct (IH (ctxs ++ [ctx]) (calls ++ range_calls sr)) as [ctxs' H];
      [intros; apply Hok; right; assumption|].
    rewrite H, <- app_assoc. eexists. reflexivity.
Qed.

Lemma pipe_guarded m calls :
  is_channel_stream_load (Some m) = true ->
  pipe (Some m) calls =
    match load_nodes Ctx create put m calls with
    | None => None
    | Some (Err e, calls') => Some (Err e, calls')
    | Some (Ok ctxs, calls') => Some (Ok (Some ctxs), calls')
    end.
Proof.
  destruct m as [|[n pd] rest]; simpl; [discriminate|].
  destruct pd as [|[k srs] pd']; [discriminate|].
  destruct srs as [|sr0 srs']; [discriminate|].
  destruct (broker_scan_range (scan_range sr0)) as [b|]; [|discriminate].
  destruct (channel_id b); simpl; [reflexivity | discriminate].
Qed.

(** [_prepare_stream_load_pipe] returns OK without touching the stream
    context manager and without setting any stream load context exactly
    when the first scan range of the first driver sequence of the first
    node is not a broker scan range with a channel id (or there is no
    such range, or no per-driver scan ranges at all). Otherwise it never
    takes that early return. *)
Theorem stream_load_early_return_iff m calls :
  is_channel_stream_load m = false <-> pipe m calls = Some (Ok None, calls).
Proof.
  split.
  - destruct m as [m|]; [|reflexivity].
    destruct m as [|[n pd] rest]; [reflexivity|].
    destruct pd as [|[k srs] pd']; [reflexivity|].
    destruct srs as [|sr0 srs']; [reflexivity|]. simpl.
    destruct (broker_scan_range (scan_range sr0)) as [b|]; [|reflexivity].
    destruct (channel_id b); simpl; [discriminate | reflexivity].
  - destruct (is_channel_stream_load m) eqn:Hg; [|reflexivity].
    destruct m as [m|]; [|discriminate].
    rewrite pipe_guarded by exact Hg.
    destruct (load_nodes Ctx create put m calls) as [[[ctxs|e] calls']|];
      intros Hc; inversion Hc.
Qed.

(** For a single scan node whose every scan range gets its channel
    context created and put, [_prepare_stream_load_pipe] sets the stream
    load contexts to one context per scan range, in driver-sequence then
    range order, after one create and one put per range, in that order. *)
Theorem stream_load_one_node_contexts node per_driver calls (ctx_of : TScanRangeParams -> Ctx) :
  is_channel_stream_load (Some [(node, per_driver)]) = true ->
  (forall sr, In sr (flat_map snd per_driver) -> creates sr (ctx_of sr)) ->
  pipe (Some [(node, per_driver)]) calls =
    Some (Ok (Some (map ctx_of (flat_map snd per_driver))),
          calls ++ flat_map range_calls (flat_map snd per_driver)).
Proof.
  intros Hg Hok. rewrite pipe_guarded by exact Hg. unfold load_nodes.
  rewrite load_seqs_flat, (load_list_all_ok _ ctx_of) by exact Hok. reflexivity.
Qed.

(** The scan ranges of the first node are processed in order, and the
    first failing [create_channel_context] or [put_channel_context] ends
    [_prepare_stream_load_pipe] with its error: no later range is
    touched, no stream load context is set, and the failing range's put
    is skipped when its create failed. *)
Theorem stream_load_stops_at_first_failure node per_driver rest pre sr post calls
    range0 ranges' e :
  is_channel_stream_load (Some ((node, per_driver) :: rest)) = true ->
  flat_map snd per_driver = pre ++ sr :: post ->
  (forall sr', In sr' pre -> exists ctx, creates sr' ctx) ->
  ranges (read_broker_scan_range (scan_range sr)) = range0 :: ranges' ->
  let b := read_broker_scan_range (scan_range sr) in
  (create (label (params b)) (read_channel_id b) (db_name (params b)) (table_name (params b))
     (format_type range0) (load_id range0) (txn_id (params b)) = Err e ->
   pipe (Some ((node, per_driver) :: rest)) calls =
     Some (Err e, calls ++ flat_map range_calls pre ++ firstn 1 (range_calls sr))) /\
  (forall ctx,
     create (label (params b)) (read_channel_id b) (db_name (params b)) (table_name (params b))
       (format_type range0) (load_id range0) (txn_id (params b)) = Ok ctx ->
     put (label (params b)) (read_channel_id b) ctx = Err e ->
     pipe (Some ((node, per_driver) :: rest)) calls =
       Some (Err e, calls ++ flat_map range_calls pre ++ range_calls sr)).
Proof.
  intros Hg Hsplit Hok Hr b. subst b.
  rewrite pipe_guarded by exact Hg. unfold load_nodes.
  rewrite load_seqs_flat, Hsplit, load_list_app.
  destruct (load_list_prefix_ok pre [] calls Hok) as [ctxs' ->]. simpl.
  unfold load_scan_range, range_calls. simpl. rewrite Hr. simpl.
  split.
  - intros Hc. rewrite Hc, <- app_assoc. reflexivity.
  - intros ctx Hc Hp. rewrite Hc, Hp, <- !app_assoc. reflexivity.
Qed.

(** [iter2] is not reset between scan nodes: once the first node's scan
    ranges went through, a second node in [node_to_per_driver_seq_scan_ranges]
    makes the loop compare iterators of two different maps, which is
    undefined behaviour. *)
Theorem stream_load_second_node_undefined n1 pd1 n2 pd2 rest calls :
  is_channel_stream_load (Some ((n1, pd1) :: (n2, pd2) :: rest)) = true ->
  (forall sr, In sr (flat_map snd pd1) -> exists ctx, creates sr ctx) ->
  pipe (Some ((n1, pd1) :: (n2, pd2) :: rest)) calls = None.
Proof.
  intros Hg Hok. rewrite pipe_guarded by exact Hg. unfold load_nodes.
  rewrite load_seqs_flat.
  destruct (load_list_prefix_ok (flat_map snd pd1) [] calls Hok) as [ctxs' ->].
  reflexivity.
Qed.

(** A scan range reached by the loop whose broker scan range has no
    [ranges] makes [ranges[0]] read out of bounds: undefined behaviour,
    also when it is the very first range, which the guard does not
    check for it. *)
Theorem stream_load_empty_ranges_undefined node per_driver rest pre sr post calls :
  is_channel_stream_load (Some ((node, per_driver) :: rest)) = true ->
  flat_map snd per_driver = pre ++ sr :: post ->
  (forall sr', In sr' pre -> exists ctx, creates sr' ctx) ->
  ranges (read_broker_scan_range (scan_range sr)) = [] ->
  pipe (Some ((node, per_driver) :: rest)) calls = None.
Proof.
  intros Hg Hsplit Hok Hr.
  rewrite pipe_guarded by exact Hg. unfold load_nodes.
  rewrite load_seqs_flat, Hsplit, load_list_app.
  destruct (load_list_prefix_ok pre [] calls Hok) as [ctxs' ->]. simpl.
  unfold load_scan_range at 1. rewrite Hr. reflexivity.
Qed.

End PipeFacts.

End StreamLoadProofs.

(** One node, one driver sequence of two channels 0 and 1: both contexts
    are created, put and set, in order. *)
Lemma stream_load_one_node_contexts_witness :
  exists calls,
    StreamLoad._prepare_stream_load_pipe Z LoadExamples.ex_create (LoadExamples.ex_put 9)
      (Some [(1, [(0, [LoadExamples.ex_broker_range 0 [LoadExamples.ex_desc];
                       LoadExamples.ex_broker_range 1 [LoadExamples.ex_desc]])])]) [] =
    Some (Ok (Some [0; 1]), calls).
Proof.
  eexists.
  rewrite (StreamLoadProofs.stream_load_one_node_contexts Z LoadExamples.ex_create
             (LoadExamples.ex_put 9) 1
             [(0, [LoadExamples.ex_broker_range 0 [LoadExamples.ex_desc];
                   LoadExamples.ex_broker_range 1 [LoadExamples.ex_desc]])] []
             LoadExamples.ex_ctx_of eq_refl).
  - reflexivity.
  - simpl. intros sr [<- | [<- | []]]; split; reflexivity.
Defined.

(** The put of channel 1 fails: the error is returned after the calls of
    channel 0 and the create and put of channel 1. *)
Lemma stream_load_stops_at_first_failure_witness :
  StreamLoad._prepare_stream_load_pipe Z LoadExamples.ex_create (LoadExamples.ex_put 1)
    (Some [(1, [(0, [LoadExamples.ex_broker_range 0 [LoadExamples.ex_desc];
                     LoadExamples.ex_broker_range 1 [LoadExamples.ex_desc]])])]) [] =
  Some (Err InternalError,
        StreamLoad.range_calls (LoadExamples.ex_broker_range 0 [LoadExamples.ex_desc]) ++
        StreamLoad.range_calls (LoadExamples.ex_broker_range 1 [LoadExamples.ex_desc])).
Proof.
  destruct (StreamLoadProofs.stream_load_stops_at_first_failure Z LoadExamples.ex_create
              (LoadExamples.ex_put 1) 1
              [(0, [LoadExamples.ex_broker_range 0 [LoadExamples.ex_desc];
                    LoadExamples.ex_broker_range 1 [LoadExamples.ex_desc]])] []
              [LoadExamples.ex_broker_range 0 [LoadExamples.ex_desc]]
              (LoadExamples.ex_broker_range 1 [LoadExamples.ex_desc]) [] [] LoadExamples.ex_desc []
              InternalError eq_refl eq_refl) as [_ Hput].
  - simpl. intros sr [<- | []]. exists 0. split; reflexivity.
  - reflexivity.
  - rewrite (Hput 1 eq_refl eq_refl). reflexivity.
Defined.

(** Two scan nodes, each with one channel: undefined behaviour once the
    first node's ranges are done. *)
Lemma stream_load_second_node_undefined_witness :
  StreamLoad._prepare_stream_load_pipe Z LoadExamples.ex_create (LoadExamples.ex_put 9)
    (Some [(1, [(0, [LoadExamples.ex_broker_range 0 [LoadExamples.ex_desc]])]);
           (2, [(0, [LoadExamples.ex_broker_range 1 [LoadExamples.ex_desc]])])]) [] = None.
Proof.
  apply (StreamLoadProofs.stream_load_second_node_undefined Z LoadExamples.ex_create
           (LoadExamples.ex_put 9) 1 [(0, [LoadExamples.ex_broker_range 0 [LoadExamples.ex_desc]])]
           2 [(0, [LoadExamples.ex_broker_range 1 [LoadExamples.ex_desc]])] [] [] eq_refl).
  simpl. intros sr [<- | []]. exists 0. split; reflexivity.
Defined.

(** A channel scan range without range descriptors as the first range:
    undefined behaviour. *)
Lemma stream_load_empty_ranges_undefined_witness :
  StreamLoad._prepare_stream_load_pipe Z LoadExamples.ex_create (LoadExamples.ex_put 9)
    (Some [(1, [(0, [LoadExamples.ex_broker_range 0 []])])]) [] = None.
Proof.
  apply (StreamLoadProofs.stream_load_empty_ranges_undefined Z LoadExamples.ex_create
           (LoadExamples.ex_put 9) 1 [(0, [LoadExamples.ex_broker_range 0 []])] [] []
           (LoadExamples.ex_broker_range 0 []) [] [] eq_refl eq_refl).
  - simpl. intros sr [].
  - reflexivity.
Defined.

Module RuntimeSetupProofs.

Import RuntimeSetup.

Section RuntimeStateFacts.

Variable DescriptorTbl : Type.
Variable spill_mem_limit_of : Z -> Z.
Variable DescriptorTbl_create : ObjectPool -> result DescriptorTbl.
Variable init_spill_manager : result unit.

Local Abbreviation prs := (_prepare_runtime_state DescriptorTbl spill_mem_limit_of
                             DescriptorTbl_create init_spill_manager).

Lemma prepare_runtime_state_query_ctx wg request qs :
  let qs' := snd (prs wg request qs) in
  mem_tracker_limits qs' = Some (query_mem_limits spill_mem_limit_of wg (rs_query_options request)) /\
  is_runtime_filter_coordinator qs' =
    match select_runtime_filter_params request with
    | Some _ => true
    | None => is_runtime_filter_coordinator qs
    end /\
  open_queries qs' =
    open_queries qs ++ match select_runtime_filter_params request with
                       | Some p => [p]
                       | None => []
                       end.
Proof.
  unfold _prepare_runtime_state.
  destruct (select_runtime_filter_params request) as [p|];
  destruct (desc_tbl_is_cached request) as [[|]|];
  try destruct (desc_tbl _);
  try destruct (DescriptorTbl_create _);
  destruct (spill_enabled (rs_query_options request)); try destruct init_spill_manager;
  simpl; rewrite ?app_nil_r; repeat split.
Qed.

(** The query memory limit given to the query's memory tracker is
    either -1 (no limit) or positive: a positive [query_mem_limit] is
    passed as it is, while an unset, zero or negative one becomes -1, and
    then there is no spill limit (-1) even with spill enabled. With a
    positive limit, the spill limit is derived from it exactly when spill
    is enabled. *)
Theorem query_mem_limit_normalized wg qo :
  let '(q, _, spill) := query_mem_limits spill_mem_limit_of wg qo in
  (q = -1 \/ 0 < q) /\
  ((forall l, query_mem_limit qo = Some l -> l <= 0) -> q = -1 /\ spill = -1) /\
  (query_mem_limit qo = None -> q = -1 /\ spill = -1) /\
  (forall l, query_mem_limit qo = Some l -> 0 < l ->
     q = l /\ spill = if spill_enabled qo then spill_mem_limit_of l else -1).
Proof.
  unfold query_mem_limits.
  destruct (query_mem_limit qo) as [l|] eqn:Hq.
  - destruct (Z.leb_spec l 0) as [Hl|Hl]; simpl.
    + rewrite andb_false_r. split; [left; reflexivity|].
      split; [intros _; split; reflexivity|]. split; [discriminate|].
      intros l' Hl' Hpos. injection Hl' as <-. lia.
    + assert (Hb : (0 <? l) = true) by (apply Z.ltb_lt; lia). rewrite Hb, andb_true_r.
      split; [right; exact Hl|].
      split; [intros Hneg; specialize (Hneg l eq_refl); lia|]. split; [discriminate|].
      intros l' Hl' _. injection Hl' as <-. split; reflexivity.
  - simpl. rewrite andb_false_r. split; [left; reflexivity|].
    split; [intros _; split; reflexivity|]. split; [intros _; split; reflexivity|].
    intros l' Hl'. discriminate.
Qed.

(** [_prepare_runtime_state] makes the query context the runtime-filter
    coordinator and opens the runtime filters with the unique request's
    params when their prober map is non-empty, else with the common
    request's under the same test; otherwise it does neither. This
    happens before the descriptor table is set up, so it stays done when
    that later step fails. *)
Theorem runtime_filter_params_selection wg request qs :
  let qs' := snd (prs wg request qs) in
  (forall u, unique_runtime_filter_params request = Some u -> id_to_prober_params u <> [] ->
     is_runtime_filter_coordinator qs' = true /\ open_queries qs' = open_queries qs ++ [u]) /\
  (has_prober_params (unique_runtime_filter_params request) = false ->
   forall c, common_runtime_filter_params request = Some c -> id_to_prober_params c <> [] ->
     is_runtime_filter_coordinator qs' = true /\ open_queries qs' = open_queries qs ++ [c]) /\
  (has_prober_params (unique_runtime_filter_params request) = false ->
   has_prober_params (common_runtime_filter_params request) = false ->
     is_runtime_filter_coordinator qs' = is_runtime_filter_coordinator qs /\
     open_queries qs' = open_queries qs).
Proof.
  intros qs'. destruct (prepare_runtime_state_query_ctx wg request qs) as (_ & Hc & Ho).
  fold qs' in Hc, Ho. rewrite Hc, Ho. unfold select_runtime_filter_params.
  split; [|split].
  - intros u Hu Hne. rewrite Hu. unfold has_prober_params.
    destruct (id_to_prober_params u); [congruence|]. split; reflexivity.
  - intros Hu c Hcm Hne. rewrite Hu, Hcm. unfold has_prober_params.
    destruct (id_to_prober_params c); [congruence|]. split; reflexivity.
  - intros Hu Hcm. rewrite Hu, Hcm, app_nil_r. split; reflexivity.
Qed.

(** With [desc_tbl.is_cached] set and true, a query context without a
    cached descriptor table makes [_prepare_runtime_state] fail with
    [Cancelled] ("Query terminates prematurely"), leaving the context
    without one; the memory tracker has been initialised by then. *)
Theorem cached_desc_tbl_missing_cancels wg request qs :
  desc_tbl_is_cached request = Some true -> desc_tbl qs = None ->
  fst (prs wg request qs) = Err Cancelled /\
  desc_tbl (snd (prs wg request qs)) = None /\
  mem_tracker_limits (snd (prs wg request qs)) =
    Some (query_mem_limits spill_mem_limit_of wg (rs_query_options request)).
Proof.
  intros Hc Hd. destruct (prepare_runtime_state_query_ctx wg request qs) as (Hm & _ & _).
  split; [|split; [|exact Hm]];
    unfold _prepare_runtime_state; rewrite Hc;
    destruct (select_runtime_filter_params request); simpl; rewrite Hd; reflexivity.
Qed.

(** The descriptor table a fragment creates into the query context's pool
    ([is_cached] false) is stored on the query context, whatever the
    spill manager does afterwards, and a later fragment of the
    same query sent with [is_cached] true gets that very table. A
    fragment without [is_cached] creates its table in its own runtime
    state's pool and leaves the query context's table as it was. *)
Theorem desc_tbl_shared_through_query_ctx wg r1 r2 qs d :
  desc_tbl_is_cached r1 = Some false ->
  DescriptorTbl_create QueryObjectPool = Ok d ->
  desc_tbl_is_cached r2 = Some true ->
  (spill_enabled (rs_query_options r2) = true -> init_spill_manager = Ok tt) ->
  desc_tbl (snd (prs wg r1 qs)) = Some d /\
  fst (prs wg r2 (snd (prs wg r1 qs))) = Ok d /\
  desc_tbl (snd (prs wg r2 (snd (prs wg r1 qs)))) = Some d /\
  (forall r3 qs3, desc_tbl_is_cached r3 = None -> desc_tbl (snd (prs wg r3 qs3)) = desc_tbl qs3).
Proof.
  intros H1 Hcreate H2 Hspill.
  assert (Hstore : desc_tbl (snd (prs wg r1 qs)) = Some d).
  { unfold _prepare_runtime_state at 1. rewrite H1, Hcreate.
    destruct (select_runtime_filter_params r1);
      destruct (spill_enabled (rs_query_options r1)); try destruct init_spill_manager;
      reflexivity. }
  split; [exact Hstore|].
  assert (Hsecond : forall qs1, desc_tbl qs1 = Some d ->
            fst (prs wg r2 qs1) = Ok d /\ desc_tbl (snd (prs wg r2 qs1)) = Some d).
  { intros qs1 Hq1. unfold _prepare_runtime_state. rewrite H2.
    destruct (select_runtime_filter_params r2); simpl; rewrite Hq1;
      destruct (spill_enabled (rs_query_options r2)) eqn:Hs;
      try (rewrite (Hspill eq_refl)); split; reflexivity. }
  destruct (Hsecond _ Hstore) as [Ha Hb]. split; [exact Ha|]. split; [exact Hb|].
  intros r3 qs3 H3. unfold _prepare_runtime_state. rewrite H3.
  destruct (select_runtime_filter_params r3);
    destruct (DescriptorTbl_create RuntimeStateObjectPool);
    destruct (spill_enabled (rs_query_options r3)); try destruct init_spill_manager;
    reflexivity.
Qed.

End RuntimeStateFacts.

End RuntimeSetupProofs.

Module GlobalDictProofs.

Import GlobalDict.

Section DictFacts.

Variable TGlobalDict : Type.
Variable TExpr : Type.
Variable init_query_global_dict : list TGlobalDict -> result unit.
Variable init_query_global_dict_exprs : list (Z * TExpr) -> result unit.
Variable init_load_global_dict : list TGlobalDict -> result unit.

Local Abbreviation run fragment := (_prepare_global_dict TGlobalDict TExpr init_query_global_dict
  init_query_global_dict_exprs init_load_global_dict fragment []).

(** [_prepare_global_dict] never initialises the query global dict
    expressions of a fragment without query global dicts, even when the
    expressions are set. When every initialisation succeeds, it makes the
    calls in the order query dicts, their expressions, load dicts, each
    present only when its field is set (the expressions also needing the
    query dicts). When the query dict initialisation fails, nothing else
    is initialised. *)
Theorem global_dict_init_calls fragment :
  (query_global_dicts fragment = None -> ~ In InitQueryGlobalDictExprs (snd (run fragment))) /\
  ((forall d, query_global_dicts fragment = Some d -> init_query_global_dict d = Ok tt) ->
   (forall es, query_global_dict_exprs fragment = Some es -> init_query_global_dict_exprs es = Ok tt) ->
   (forall d, load_global_dicts fragment = Some d -> init_load_global_dict d = Ok tt) ->
   run fragment =
     (Ok tt, (if isset (query_global_dicts fragment) then [InitQueryGlobalDict] else []) ++
             (if isset (query_global_dicts fragment) && isset (query_global_dict_exprs fragment)
              then [InitQueryGlobalDictExprs] else []) ++
             (if isset (load_global_dicts fragment) then [InitLoadGlobalDict] else []))) /\
  (forall d e, query_global_dicts fragment = Some d -> init_query_global_dict d = Err e ->
     run fragment = (Err e, [InitQueryGlobalDict])).
Proof.
  unfold _prepare_global_dict, seq, call, skip.
  split; [|split].
  - intros Hq. rewrite Hq. simpl.
    destruct (load_global_dicts fragment) as [dl|]; simpl; [destruct (init_load_global_dict dl)|];
      simpl; intuition discriminate.
  - intros Hq He Hl.
    destruct (query_global_dicts fragment) as [d|] eqn:Eq;
      [rewrite (Hq d eq_refl)|];
    destruct (query_global_dict_exprs fragment) as [es|] eqn:Ee;
      try rewrite (He es eq_refl);
    destruct (load_global_dicts fragment) as [dl|] eqn:El;
      try rewrite (Hl dl eq_refl); reflexivity.
  - intros d e Hq Hi. rewrite Hq, Hi. reflexivity.
Qed.

End DictFacts.

End GlobalDictProofs.

(** A fragment sent with [is_cached] true to a fresh query context is
    cancelled. *)
Lemma cached_desc_tbl_missing_cancels_witness :
  fst (RuntimeSetup._prepare_runtime_state Z (fun l => l / 2) (fun _ => Ok 5) (Ok tt)
         RuntimeExamples.ex_wg (RuntimeExamples.ex_rs_request (Some true))
         RuntimeExamples.ex_query_ctx_state) = Err Cancelled.
Proof.
  exact (proj1 (RuntimeSetupProofs.cached_desc_tbl_missing_cancels Z (fun l => l / 2)
                  (fun _ => Ok 5) (Ok tt) RuntimeExamples.ex_wg
                  (RuntimeExamples.ex_rs_request (Some true)) RuntimeExamples.ex_query_ctx_state
                  eq_refl eq_refl)).
Defined.

(** A first fragment creates table 5 in the query pool; a second fragment
    with [is_cached] true gets table 5. *)
Lemma desc_tbl_shared_through_query_ctx_witness :
  fst (RuntimeSetup._prepare_runtime_state Z (fun l => l / 2) (fun _ => Ok 5) (Ok tt)
         RuntimeExamples.ex_wg (RuntimeExamples.ex_rs_request (Some true))
         (snd (RuntimeSetup._prepare_runtime_state Z (fun l => l / 2) (fun _ => Ok 5) (Ok tt)
                 RuntimeExamples.ex_wg (RuntimeExamples.ex_rs_request (Some false))
                 RuntimeExamples.ex_query_ctx_state))) = Ok 5.
Proof.
  exact (proj1 (proj2 (RuntimeSetupProofs.desc_tbl_shared_through_query_ctx Z (fun l => l / 2)
                         (fun _ => Ok 5) (Ok tt) RuntimeExamples.ex_wg
                         (RuntimeExamples.ex_rs_request (Some false))
                         (RuntimeExamples.ex_rs_request (Some true))
                         RuntimeExamples.ex_query_ctx_state 5 eq_refl eq_refl eq_refl
                         (fun _ => eq_refl)))).
Defined.

Module ScanLoopProofs.

Import ScanPlan.

Section LoopMore.

Variable query_cache_num_lanes_per_driver dop : Z.
Variable convert_scan_range_to_morsel_queue_factory :
  ScanNode -> list TScanRangeParams -> PerDriverScanRangesMap -> Z -> Z -> bool ->
  TTabletInternalParallelMode -> result MorselQueueFactory.

Local Abbreviation step := (scan_node_step query_cache_num_lanes_per_driver dop
                          convert_scan_range_to_morsel_queue_factory).
Local Abbreviation loop := (scan_loop query_cache_num_lanes_per_driver dop
                          convert_scan_range_to_morsel_queue_factory).
Local Abbreviation factory := (factory_of_node dop convert_scan_range_to_morsel_queue_factory).

Lemma step_ok req st sn st' :
  step req st sn = Ok st' ->
  exists f, factory req sn = Ok f /\
    morsel_queue_factories st' = emplace (morsel_queue_factories st) (sn_id sn) f /\
    shared_scan_calls st' =
      shared_scan_calls st ++ [(sn_id sn, enable_shared_scan st' && is_shared f)] /\
    enable_cache st' =
      match per_driver_seq_scan_ranges_of_node req (sn_id sn) with
      | [] => false
      | _ => enable_cache st
      end /\
    enable_shared_scan st' = (if enable_cache st' then false else enable_shared_scan st) /\
    plan_node_id (cache_param st') = plan_node_id (cache_param st) /\
    digest (cache_param st') = digest (cache_param st) /\
    cached_plan_node_ids (cache_param st') = cached_plan_node_ids (cache_param st) /\
    num_lanes (cache_param st') = Z.min 16 (Z.max 1 query_cache_num_lanes_per_driver) /\
    (enable_cache st' = false -> cache_key_prefixes (cache_param st') =
                                 cache_key_prefixes (cache_param st)).
Proof.
  unfold scan_node_step. cbn zeta.
  destruct (factory req sn) as [f|e] eqn:Hf; [|discriminate].
  intros H; injection H as <-. exists f. cbn.
  destruct (per_driver_seq_scan_ranges_of_node req (sn_id sn)); cbn;
    [repeat split; reflexivity|].
  destruct (enable_cache st); cbn; [|repeat split; reflexivity].
  destruct (existsb (Z.eqb (sn_id sn)) (cached_plan_node_ids (cache_param st)));
    cbn; repeat split; try reflexivity; discriminate.
Qed.

(** After the loop over at least one scan node, the fragment's cache
    [num_lanes] is [query_cache_num_lanes_per_driver] clamped to
    [1, 16], whether or not the cache is on; the loop leaves the cache's
    plan node id, digest and cached plan node ids as they were. *)
Theorem cache_num_lanes_clamped req st nodes st' :
  scan_loop query_cache_num_lanes_per_driver dop convert_scan_range_to_morsel_queue_factory
    req st nodes = Ok st' -> nodes <> [] ->
  num_lanes (cache_param st') = Z.min 16 (Z.max 1 query_cache_num_lanes_per_driver) /\
  1 <= num_lanes (cache_param st') <= 16 /\
  plan_node_id (cache_param st') = plan_node_id (cache_param st) /\
  digest (cache_param st') = digest (cache_param st) /\
  cached_plan_node_ids (cache_param st') = cached_plan_node_ids (cache_param st).
Proof.
  revert st. induction nodes as [|n ns IH]; intros st H Hne; [congruence|].
  simpl in H. destruct (step req st n) as [s1|e] eqn:Hs; [|discriminate].
  destruct (step_ok _ _ _ _ Hs) as (f & _ & _ & _ & _ & _ & Hp & Hd & Hc & Hn & _).
  destruct ns as [|m ns].
  - simpl in H. injection H as <-. rewrite Hp, Hd, Hc, Hn. repeat split; lia.
  - destruct (IH s1 H ltac:(discriminate)) as (Hn' & Hb & Hp' & Hd' & Hc').
    rewrite Hp', Hd', Hc', Hp, Hd, Hc. split; [exact Hn'|]. split; [exact Hb|].
    repeat split.
Qed.

(** With the cache on at the start of the loop, it is still on at the
    end exactly when every scan node has per-driver scan ranges. *)
Theorem cache_kept_iff_all_nodes_have_lanes req st nodes st' :
  loop req st nodes = Ok st' -> enable_cache st = true ->
  (enable_cache st' = true <->
   Forall (fun n => per_driver_seq_scan_ranges_of_node req (sn_id n) <> []) nodes).
Proof.
  revert st. induction nodes as [|n ns IH]; intros st H Hon; simpl in H.
  - injection H as <-. split; [intros _; constructor | intros _; exact Hon].
  - destruct (step req st n) as [s1|e] eqn:Hs; [|discriminate].
    destruct (step_ok _ _ _ _ Hs) as (f & _ & _ & _ & Hec & _).
    destruct (per_driver_seq_scan_ranges_of_node req (sn_id n)) as [|x xs] eqn:Hpd.
    + assert (Hoff : enable_cache st' = false).
      { clear IH Hs. revert s1 H Hec. induction ns as [|m ms IHm]; intros s1 H Hec; simpl in H.
        - injection H as <-. exact Hec.
        - destruct (step req s1 m) as [s2|e] eqn:Hs2; [|discriminate].
          destruct (step_ok _ _ _ _ Hs2) as (f2 & _ & _ & _ & Hec2 & _).
          apply (IHm s2 H). rewrite Hec2, Hec.
          destruct (per_driver_seq_scan_ranges_of_node req (sn_id m)); reflexivity. }
      rewrite Hoff. split; [discriminate|]. intros Hall. inversion Hall; subst. congruence.
    + rewrite Hon in Hec. rewrite (IH s1 H Hec). split.
      * intros Hall. constructor; [rewrite Hpd; discriminate | exact Hall].
      * intros Hall. inversion Hall; assumption.
Qed.

Lemma loop_without_cache req st nodes st' :
  loop req st nodes = Ok st' -> enable_cache st = false ->
  enable_cache st' = false /\
  enable_shared_scan st' = enable_shared_scan st /\
  cache_key_prefixes (cache_param st') = cache_key_prefixes (cache_param st) /\
  exists fs, Forall2 (fun n f => factory req n = Ok f) nodes fs /\
    shared_scan_calls st' =
      shared_scan_calls st ++ map (fun nf => (sn_id (fst nf), enable_shared_scan st && is_shared (snd nf)))
                                (combine nodes fs).
Proof.
  revert st. induction nodes as [|n ns IH]; intros st H Hoff; simpl in H.
  - injection H as <-. split; [exact Hoff|]. split; [reflexivity|]. split; [reflexivity|].
    exists []. split; [constructor | rewrite app_nil_r; reflexivity].
  - destruct (step req st n) as [s1|e] eqn:Hs; [|discriminate].
    destruct (step_ok _ _ _ _ Hs) as (f & Hf & _ & Hcalls & Hec & Hess & _ & _ & _ & _ & Hpre).
    assert (Hoff1 : enable_cache s1 = false).
    { rewrite Hec, Hoff. destruct (per_driver_seq_scan_ranges_of_node req (sn_id n)); reflexivity. }
    rewrite Hoff1 in Hess. specialize (Hpre Hoff1).
    destruct (IH s1 H Hoff1) as (Hc' & Hs' & Hp' & fs & Hfs & Hcl).
    split; [exact Hc'|]. split; [congruence|]. split; [congruence|].
    exists (f :: fs). split; [constructor; assumption|].
    rewrite Hcl, Hcalls, Hess, <- app_assoc. reflexivity.
Qed.

(** Without a query cache for the fragment (no cache param, or spill
    enabled), the scan-node loop leaves the cache off with no cache-key
    prefixes, and calls [enable_shared_scan] on the k-th scan node with
    the request's [enable_shared_scan] and-ed with whether that node's
    morsel queue factory is shared. *)
Theorem no_cache_shared_scan_calls req enable_spill nodes st' :
  (fragment_cache_param req = None \/ enable_spill = true) ->
  loop req (initial_loop_state req enable_spill) nodes = Ok st' ->
  let ess := match common_enable_shared_scan req with Some b => b | None => false end in
  enable_cache st' = false /\ cache_key_prefixes (cache_param st') = ∅ /\
  exists fs, Forall2 (fun n f => factory req n = Ok f) nodes fs /\
    shared_scan_calls st' =
      map (fun nf => (sn_id (fst nf), ess && is_shared (snd nf))) (combine nodes fs).
Proof.
  intros Hno H ess.
  assert (Hinit : enable_cache (initial_loop_state req enable_spill) = false /\
                  enable_shared_scan (initial_loop_state req enable_spill) = ess /\
                  cache_key_prefixes (cache_param (initial_loop_state req enable_spill)) = ∅ /\
                  shared_scan_calls (initial_loop_state req enable_spill) = []).
  { unfold initial_loop_state.
    destruct Hno as [Hn | ->]; [rewrite Hn | destruct (fragment_cache_param req)];
      repeat split; reflexivity. }
  destruct Hinit as (Hc0 & Hs0 & Hp0 & Hl0).
  destruct (loop_without_cache _ _ _ _ H Hc0) as (Hc & _ & Hp & fs & Hfs & Hcl).
  split; [exact Hc|]. split; [congruence|]. exists fs. split; [exact Hfs|].
  rewrite Hcl, Hl0, Hs0. reflexivity.
Qed.

Lemma map_count_in {V} (m : list (Z * V)) k : map_count m k = true <-> In k (map fst m).
Proof.
  unfold map_count. rewrite existsb_exists. split.
  - intros ([k' v] & Hin & Heq). apply Z.eqb_eq in Heq. simpl in Heq. subst k'.
    apply in_map_iff. exists (k, v). split; [reflexivity | exact Hin].
  - intros Hin. apply in_map_iff in Hin as ([k' v] & Hk & Hin). simpl in Hk. subst k'.
    exists (k, v). split; [exact Hin | apply Z.eqb_refl].
Qed.

Lemma emplace_keys {V} (m : list (Z * V)) k v :
  map fst (emplace m k v) = if map_count m k then map fst m else map fst m ++ [k].
Proof. unfold emplace. destruct (map_count m k); [reflexivity | rewrite map_app; reflexivity]. Qed.

Lemma emplace_keeps {V} (m : list (Z * V)) k v kv : In kv m -> In kv (emplace m k v).
Proof. unfold emplace. destruct (map_count m k); [tauto | intros; apply in_or_app; left; assumption]. Qed.

Lemma loop_factories req st nodes st' :
  loop req st nodes = Ok st' ->
  NoDup (map fst (morsel_queue_factories st)) ->
  NoDup (map fst (morsel_queue_factories st')) /\
  (forall kv, In kv (morsel_queue_factories st) -> In kv (morsel_queue_factories st')) /\
  (forall n, In n nodes -> ~ In (sn_id n) (map fst (morsel_queue_factories st)) ->
     exists n0 f, List.find (fun m => Z.eqb (sn_id m) (sn_id n)) nodes = Some n0 /\
       factory req n0 = Ok f /\ In (sn_id n, f) (morsel_queue_factories st')) /\
  (forall k v, In (k, v) (morsel_queue_factories st') ->
     In (k, v) (morsel_queue_factories st) \/ In k (map sn_id nodes)).
Proof.
  revert st. induction nodes as [|n1 ns IH]; intros st H Hnd; simpl in H.
  - injection H as <-. split; [exact Hnd|]. split; [tauto|]. split; [intros n []|]. tauto.
  - destruct (step req st n1) as [s1|e] eqn:Hs; [|discriminate].
    destruct (step_ok _ _ _ _ Hs) as (f1 & Hf1 & Hm & _).
    assert (Hnd1 : NoDup (map fst (morsel_queue_factories s1))).
    { rewrite Hm, emplace_keys. destruct (map_count (morsel_queue_factories st) (sn_id n1)) eqn:Ec;
        [exact Hnd|].
      apply NoDup_app. split; [exact Hnd|]. split; [|apply NoDup_singleton].
      intros x Hx Hx2. apply list_elem_of_singleton in Hx2. subst x.
      apply list_elem_of_In, map_count_in in Hx. congruence. }
    destruct (IH s1 H Hnd1) as (IHnd & IHkeep & IHnew & IHorig).
    split; [exact IHnd|]. split.
    { intros kv Hkv. apply IHkeep. rewrite Hm. apply emplace_keeps. exact Hkv. }
    split.
    + intros n Hin Hnot. simpl.
      destruct (Z.eqb (sn_id n1) (sn_id n)) eqn:Eid.
      * apply Z.eqb_eq in Eid. exists n1, f1. split; [reflexivity|]. split; [exact Hf1|].
        apply IHkeep. rewrite Hm. unfold emplace. rewrite Eid.
        assert (Ec : map_count (morsel_queue_factories st) (sn_id n) = false).
        { destruct (map_count (morsel_queue_factories st) (sn_id n)) eqn:E; [|reflexivity].
          apply map_count_in in E. contradiction. }
        rewrite Ec. apply in_or_app. right. left. reflexivity.
      * destruct Hin as [<- | Hin]; [rewrite Z.eqb_refl in Eid; discriminate|].
        apply IHnew; [exact Hin|]. rewrite Hm, emplace_keys.
        destruct (map_count (morsel_queue_factories st) (sn_id n1)); [exact Hnot|].
        rewrite in_app_iff. intros [Hx | [Hx | []]]; [contradiction|].
        rewrite Hx, Z.eqb_refl in Eid. discriminate.
    + intros k v Hkv. destruct (IHorig k v Hkv) as [Hs1 | Hk]; [|right; right; exact Hk].
      rewrite Hm in Hs1. unfold emplace in Hs1.
      destruct (map_count (morsel_queue_factories st) (sn_id n1)); [left; exact Hs1|].
      apply in_app_iff in Hs1 as [Hs1 | [Heq | []]]; [left; exact Hs1|].
      injection Heq as <- _. right. left. reflexivity.
Qed.

(** The loop registers in [morsel_queue_factories] one factory per scan
    node id: the keys are distinct node ids of the plan, and the factory
    kept for an id is the one of the first scan node with that id, since
    [emplace] does not overwrite. *)
Theorem morsel_queue_factory_per_node_id req enable_spill nodes st' :
  loop req (initial_loop_state req enable_spill) nodes = Ok st' ->
  NoDup (map fst (morsel_queue_factories st')) /\
  (forall n, In n nodes ->
     exists n0 f, List.find (fun m => Z.eqb (sn_id m) (sn_id n)) nodes = Some n0 /\
       factory req n0 = Ok f /\ In (sn_id n, f) (morsel_queue_factories st')) /\
  (forall k v, In (k, v) (morsel_queue_factories st') -> In k (map sn_id nodes)).
Proof.
  intros H.
  assert (H0 : morsel_queue_factories (initial_loop_state req enable_spill) = []).
  { unfold initial_loop_state. destruct (fragment_cache_param req); [destruct enable_spill|];
      reflexivity. }
  destruct (loop_factories _ _ _ _ H ltac:(rewrite H0; constructor)) as (Hnd & _ & Hnew & Horig).
  split; [exact Hnd|]. split.
  - intros n Hin. apply Hnew; [exact Hin | rewrite H0; simpl; tauto].
  - intros k v Hkv. destruct (Horig k v Hkv) as [Hx | Hx]; [rewrite H0 in Hx; destruct Hx | exact Hx].
Qed.

End LoopMore.

Import Examples.

(** One scan node and 4 lanes per driver in the configuration: [num_lanes]
    is 4. *)
Lemma cache_num_lanes_clamped_witness :
  exists st', scan_loop 4 1 ex_convert (ex_scan_req true (Some ex_cache_param))
                (initial_loop_state (ex_scan_req true (Some ex_cache_param)) false) [ex_node] = Ok st' /\
              num_lanes (cache_param st') = 4.
Proof.
  eexists. split; [reflexivity|].
  exact (proj1 (cache_num_lanes_clamped 4 1 ex_convert (ex_scan_req true (Some ex_cache_param))
                  (initial_loop_state (ex_scan_req true (Some ex_cache_param)) false)
                  [ex_node] _ eq_refl ltac:(discriminate))).
Defined.

(** The cache param is installed and the only scan node has per-driver
    ranges: the cache stays on. *)
Lemma cache_kept_iff_all_nodes_have_lanes_witness :
  exists st', scan_loop 4 1 ex_convert (ex_scan_req true (Some ex_cache_param))
                (initial_loop_state (ex_scan_req true (Some ex_cache_param)) false) [ex_node] = Ok st' /\
              enable_cache st' = true.
Proof.
  eexists. split; [reflexivity|].
  apply (proj2 (cache_kept_iff_all_nodes_have_lanes 4 1 ex_convert
                  (ex_scan_req true (Some ex_cache_param))
                  (initial_loop_state (ex_scan_req true (Some ex_cache_param)) false)
                  [ex_node] _ eq_refl eq_refl)).
  constructor; [cbv; discriminate | constructor].
Defined.

(** No cache param, shared scan requested, a shared factory: the node is
    told to share its scan. *)
Lemma no_cache_shared_scan_calls_witness :
  exists st', scan_loop 4 1 ex_convert (ex_scan_req true None)
                (initial_loop_state (ex_scan_req true None) false) [ex_node] = Ok st' /\
              shared_scan_calls st' = [(1, true)].
Proof.
  eexists. split; [reflexivity|].
  destruct (no_cache_shared_scan_calls 4 1 ex_convert (ex_scan_req true None) false [ex_node] _
              (or_introl eq_refl) eq_refl) as (_ & _ & fs & Hfs & Hcalls).
  rewrite Hcalls. inversion Hfs as [|n f ns fs' Hf Hnil]; subst.
  inversion Hnil; subst. injection Hf as <-. reflexivity.
Defined.

(** Two scan nodes with the same id 1: one factory is registered. *)
Lemma morsel_queue_factory_per_node_id_witness :
  exists st', scan_loop 4 1 ex_convert (ex_scan_req true None)
                (initial_loop_state (ex_scan_req true None) false) [ex_node; ex_node] = Ok st' /\
              NoDup (map fst (morsel_queue_factories st')).
Proof.
  eexists. split; [reflexivity|].
  exact (proj1 (morsel_queue_factory_per_node_id 4 1 ex_convert (ex_scan_req true None) false
                  [ex_node; ex_node] _ eq_refl)).
Defined.

End ScanLoopProofs.

Module ScanLimitMoreProofs.

Import ScanPlan ScanLimit.

Lemma loop_physical_covers chunk_size dop nodes l0 p0 l p :
  0 < chunk_size -> 1 <= dop -> Forall (fun sn => 1 <= sn_io_tasks_per_scan_operator sn) nodes ->
  l0 <= p0 -> 0 <= p0 ->
  scan_limit_loop chunk_size dop nodes l0 p0 = Some (l, p) ->
  l <= p /\ 0 <= p.
Proof.
  intros Hc Hd. revert l0 p0.
  induction nodes as [|n nodes IH]; intros l0 p0 Hio Hlp Hp H; simpl in H.
  - injection H as <- <-. lia.
  - inversion Hio as [|? ? Hio_n Hio']; subst.
    destruct (0 <? sn_limit n) eqn:Hpos.
    + apply Z.ltb_lt in Hpos.
      unfold add64 at 1 in H.
      destruct (checked (l0 + sn_limit n)) as [l1|] eqn:E1; [|discriminate].
      apply ScanLimitProofs.checked_some in E1. subst l1.
      destruct (physical_limit_term chunk_size dop n) as [t|] eqn:Et; [|discriminate].
      apply (ScanLimitProofs.physical_limit_term_value _ _ _ _ Hpos Hc) in Et. subst t.
      unfold add64 at 1 in H.
      destruct (checked (p0 + _)) as [p1|] eqn:E2; [|discriminate].
      apply ScanLimitProofs.checked_some in E2. subst p1.
      pose proof (ScanLimitProofs.normalized_limit_is_ceiling (sn_limit n) chunk_size Hpos Hc) as Hceil.
      set (nl := (sn_limit n + chunk_size - 1) / chunk_size * chunk_size) in *.
      assert (Hdi : 1 <= dop * sn_io_tasks_per_scan_operator n) by nia.
      assert (Hnl : sn_limit n <= nl * dop * sn_io_tasks_per_scan_operator n).
      { rewrite <- Z.mul_assoc. assert (nl <= nl * (dop * sn_io_tasks_per_scan_operator n)) by nia.
        lia. }
      set (t := nl * dop * sn_io_tasks_per_scan_operator n) in *.
      apply (IH (l0 + sn_limit n) (p0 + t) Hio'); [lia | lia | exact H].
    + injection H as <- <-. lia.
Qed.

(** The physical scan limit (the rows the scan operators may read with
    IO parallelism) is never below the logical limit (the rows the
    limits ask for), and never negative: each node's term rounds its
    limit up to whole chunks and multiplies it by the dop and the IO
    tasks, both at least 1. *)
Theorem physical_scan_limit_covers_logical chunk_size dop big_query_scan_rows_limit nodes
    scan_limit logical physical scan_limit' :
  0 < chunk_size -> 1 <= dop ->
  Forall (fun sn => 1 <= sn_io_tasks_per_scan_operator sn) nodes ->
  prepare_scan_limit chunk_size dop big_query_scan_rows_limit nodes scan_limit =
    Some (logical, physical, scan_limit') ->
  logical <= physical /\ 0 <= physical.
Proof.
  intros Hc Hd Hio H. unfold prepare_scan_limit in H.
  destruct (scan_limit_loop chunk_size dop nodes 0 0) as [[l p]|] eqn:Hl; [|discriminate].
  injection H as <- <- _.
  exact (loop_physical_covers chunk_size dop nodes 0 0 l p Hc Hd Hio ltac:(lia) ltac:(lia) Hl).
Qed.

End ScanLimitMoreProofs.

(** Two nodes of limits 5 and 7, chunk size 4, dop 2, one IO task each. *)
Lemma physical_scan_limit_covers_logical_witness :
  ScanLimit.prepare_scan_limit 4 2 0
    [{| ScanPlan.sn_id := 1; ScanPlan.sn_limit := 5; ScanPlan.sn_io_tasks_per_scan_operator := 1 |};
     {| ScanPlan.sn_id := 2; ScanPlan.sn_limit := 7; ScanPlan.sn_io_tasks_per_scan_operator := 1 |}]
    None = Some (12, 32, None) /\ 12 <= 32.
Proof.
  assert (H : ScanLimit.prepare_scan_limit 4 2 0
    [{| ScanPlan.sn_id := 1; ScanPlan.sn_limit := 5; ScanPlan.sn_io_tasks_per_scan_operator := 1 |};
     {| ScanPlan.sn_id := 2; ScanPlan.sn_limit := 7; ScanPlan.sn_io_tasks_per_scan_operator := 1 |}]
    None = Some (12, 32, None)) by reflexivity.
  split; [exact H|].
  apply (ScanLimitMoreProofs.physical_scan_limit_covers_logical 4 2 0
    [{| ScanPlan.sn_id := 1; ScanPlan.sn_limit := 5; ScanPlan.sn_io_tasks_per_scan_operator := 1 |};
     {| ScanPlan.sn_id := 2; ScanPlan.sn_limit := 7; ScanPlan.sn_io_tasks_per_scan_operator := 1 |}]
    None 12 32 None); [lia | lia | repeat constructor; simpl; lia | exact H].
Defined.

Module ExpireMoreProofs.

Import Expire.

(** When the query timeout is set, the delivery expire seconds (the
    time for all fragments to arrive) never exceed the query expire
    seconds, and both are at least 1. *)
Theorem delivery_expire_within_query_expire DEFAULT_EXPIRE_SECONDS qo qt :
  query_timeout qo = Some qt ->
  1 <= _calc_delivery_expired_seconds DEFAULT_EXPIRE_SECONDS qo <=
    _calc_query_expired_seconds DEFAULT_EXPIRE_SECONDS qo.
Proof.
  intros Hq. unfold _calc_delivery_expired_seconds, _calc_query_expired_seconds. rewrite Hq.
  destruct (query_delivery_timeout qo); lia.
Qed.

End ExpireMoreProofs.

(** A query timeout of 5 seconds and a delivery timeout of 9: delivery
    expires after 5 seconds, like the query. *)
Lemma delivery_expire_within_query_expire_witness :
  1 <= Expire._calc_delivery_expired_seconds 300
         {| Expire.query_timeout := Some 5; Expire.query_delivery_timeout := Some 9 |} <=
       Expire._calc_query_expired_seconds 300
         {| Expire.query_timeout := Some 5; Expire.query_delivery_timeout := Some 9 |}.
Proof.
  exact (ExpireMoreProofs.delivery_expire_within_query_expire 300
           {| Expire.query_timeout := Some 5; Expire.query_delivery_timeout := Some 9 |} 5 eq_refl).
Defined.

Module ExecutorMoreProofs.

Import Adaptive Executor.

Section Lifecycle.

Variable DEFAULT_EXPIRE_SECONDS : Z.
Variable build_pipelines : Request -> result (list Pipeline).
Variable _prepare_stream_load_pipe : Request -> result unit.
Variable adaptive_blocking_event : OpId -> option EventId.
Variable group_dependent_pipelines : OpId -> list PipelineId.
Variable pipeline_event : PipelineId -> EventId.
Variable driver_prepare : Driver -> result unit.

Local Abbreviation prepare' := (prepare DEFAULT_EXPIRE_SECONDS build_pipelines
  _prepare_stream_load_pipe adaptive_blocking_event group_dependent_pipelines pipeline_event).

(** The live-fragment count of a query context, 0 when there is none. *)
Local Abbreviation active_count e qid :=
  (match query_context_mgr e !! qid with Some qc => num_active_fragments qc | None => 0 end).

Lemma setup_query_ctx_fragments req now_ns qc :
  fragment_mgr (setup_query_ctx DEFAULT_EXPIRE_SECONDS req now_ns qc) = fragment_mgr qc /\
  num_active_fragments (setup_query_ctx DEFAULT_EXPIRE_SECONDS req now_ns qc) =
    num_active_fragments qc.
Proof. unfold setup_query_ctx. destruct (instances_number req); split; reflexivity. Qed.

Lemma get_or_register_fresh e qid fid :
  fragment_registered e qid fid = false ->
  fragment_mgr (get_or_register (query_context_mgr e) qid) !! fid = None /\
  num_active_fragments (get_or_register (query_context_mgr e) qid) = active_count e qid + 1.
Proof.
  unfold fragment_registered, get_or_register. simpl.
  destruct (query_context_mgr e !! qid) as [qc|]; simpl; [|split; reflexivity].
  destruct (fragment_mgr qc !! fid); [congruence|]. split; reflexivity.
Qed.

(** The state a successful [prepare] on a fresh executor leaves: the
    executor holds the query id and a fragment context whose token holds
    [n] lanes, the limiter counts [n] more lanes, and that fragment context
    is registered under its instance id in the query context. *)
Lemma prepare_ok_state req s s' :
  executor s = new_executor ->
  prepare' req s = (Ok tt, s') ->
  exists fc qc n,
    executor s' = {| _query_ctx := Some (query_id req); _fragment_ctx := Some fc |} /\
    fc_fragment_instance_id fc = fragment_instance_id req /\
    fc_driver_token fc = Some n /\
    num_total_drivers (env s') = num_total_drivers (env s) + n /\
    query_context_mgr (env s') !! query_id req = Some qc /\
    fragment_mgr qc !! fragment_instance_id req = Some fc /\
    num_active_fragments qc = active_count (env s) (query_id req) + 1.
Proof.
  intros Hex Hr.
  unfold prepare, prepare_body, bind, check_mem_limit, _prepare_query_ctx,
    _prepare_fragment_ctx, modify, lift, _prepare_pipeline_driver, get_fragment_ctx,
    set_fragment_ctx, try_acquire, bind, modify in Hr.
  simpl in Hr.
  destruct (Z.ltb (query_pool_limit (env s)) (query_pool_consumption (env s))); [discriminate|].
  simpl in Hr. revert Hr.
  pose proof (setup_query_ctx_fragments req (now (env s))
                (get_or_register (query_context_mgr (env s)) (query_id req))) as [Hf Ha].
  remember (setup_query_ctx DEFAULT_EXPIRE_SECONDS req (now (env s))
              (get_or_register (query_context_mgr (env s)) (query_id req))) as qc1 eqn:Hqc1.
  intros Hr.
  destruct (fragment_registered (env s) (query_id req) (fragment_instance_id req)) eqn:Hreg;
    [discriminate|].
  destruct (get_or_register_fresh _ _ _ Hreg) as [Hn Hc].
  rewrite <- Hf in Hn. rewrite <- Ha in Hc. clear Hqc1 Hf Ha.
  destruct (build_pipelines req) as [pipelines|e]; [|discriminate].
  simpl in Hr.
  match type of Hr with
  | context [Z.ltb ?a ?b] => destruct (Z.ltb a b); [discriminate|]
  end.
  simpl in Hr.
  destruct (_prepare_stream_load_pipe req); [|discriminate].
  simpl in Hr. unfold register_ctx in Hr. simpl in Hr. rewrite lookup_insert_eq in Hr.
  simpl in Hr. rewrite Hn in Hr. injection Hr as <-.
  eexists _, _, _. simpl. rewrite lookup_insert_eq.
  split; [reflexivity|]. split; [reflexivity|]. split; [reflexivity|].
  split; [reflexivity|]. split; [reflexivity|]. simpl.
  split; [apply lookup_insert_eq | exact Hc].
Qed.

(** On a fresh executor, a [prepare] that fails, at whichever step, leaves
    the fragment as registered or unregistered as before, returns the lanes
    it took to the driver limiter, restores the query context's
    live-fragment count and leaves no fragment context in the executor. *)
Theorem prepare_failure_restores_registry_and_lanes req s e s' :
  executor s = new_executor ->
  prepare' req s = (Err e, s') ->
  fragment_registered (env s') (query_id req) (fragment_instance_id req) =
    fragment_registered (env s) (query_id req) (fragment_instance_id req) /\
  num_total_drivers (env s') = num_total_drivers (env s) /\
  active_count (env s') (query_id req) = active_count (env s) (query_id req) /\
  _fragment_ctx (executor s') = None.
Proof.
  intros Hex Hr.
  unfold prepare, prepare_body, bind, check_mem_limit, _prepare_query_ctx,
    _prepare_fragment_ctx, modify, lift, _prepare_pipeline_driver, get_fragment_ctx,
    set_fragment_ctx, try_acquire, bind, modify in Hr.
  simpl in Hr.
  destruct (Z.ltb (query_pool_limit (env s)) (query_pool_consumption (env s))).
  { simpl in Hr. injection Hr as _ <-. unfold _fail_cleanup. rewrite Hex. simpl.
    repeat split; try reflexivity; rewrite Hex; reflexivity. }
  simpl in Hr. revert Hr.
  pose proof (setup_query_ctx_fragments req (now (env s))
                (get_or_register (query_context_mgr (env s)) (query_id req))) as [Hf Ha].
  remember (setup_query_ctx DEFAULT_EXPIRE_SECONDS req (now (env s))
              (get_or_register (query_context_mgr (env s)) (query_id req))) as qc1 eqn:Hqc1.
  intros Hr.
  destruct (fragment_registered (env s) (query_id req) (fragment_instance_id req)) eqn:Hreg.
  { injection Hr as _ <-. unfold _fail_cleanup. rewrite Hex. simpl. rewrite Hreg.
    repeat split; try reflexivity; rewrite Hex; reflexivity. }
  destruct (get_or_register_fresh _ _ _ Hreg) as [Hn Hc].
  rewrite <- Hf in Hn. rewrite <- Ha in Hc. clear Hqc1 Hf Ha.
  destruct (build_pipelines req) as [pipelines|e0].
  2:{ injection Hr as _ <-. unfold _fail_cleanup, release_token, fragment_registered. simpl.
      repeat (rewrite lookup_insert_eq; simpl). rewrite Hn.
      repeat split; try reflexivity; lia. }
  simpl in Hr.
  match type of Hr with
  | context [Z.ltb ?a ?b] => destruct (Z.ltb a b)
  end.
  { injection Hr as _ <-. unfold _fail_cleanup, release_token, fragment_registered. simpl.
    repeat (rewrite lookup_insert_eq; simpl). rewrite Hn.
    repeat split; try reflexivity; lia. }
  simpl in Hr.
  destruct (_prepare_stream_load_pipe req).
  2:{ injection Hr as _ <-. unfold _fail_cleanup, release_token, fragment_registered. simpl.
      repeat (rewrite lookup_insert_eq; simpl). rewrite Hn.
      repeat split; try reflexivity; lia. }
  simpl in Hr. unfold register_ctx in Hr. simpl in Hr. rewrite lookup_insert_eq in Hr.
  simpl in Hr. rewrite Hn in Hr. discriminate.
Qed.

(** After a successful [prepare] on a fresh executor, an [execute] that
    fails runs [_fail_cleanup(true)]: the fragment is no longer registered,
    the limiter is back to the lane count it had before [prepare], the
    query context's live-fragment count is back to its value before
    [prepare], and the executor keeps no fragment context. *)
Theorem prepare_then_failed_execute_unregisters req s s1 e s2 :
  executor s = new_executor ->
  prepare' req s = (Ok tt, s1) ->
  execute driver_prepare s1 = (Err e, s2) ->
  fragment_registered (env s2) (query_id req) (fragment_instance_id req) = false /\
  num_total_drivers (env s2) = num_total_drivers (env s) /\
  active_count (env s2) (query_id req) = active_count (env s) (query_id req) /\
  _fragment_ctx (executor s2) = None.
Proof.
  intros Hex Hp He.
  destruct (prepare_ok_state req s s1 Hex Hp) as (fc & qc & n & Hx & Hfid & Htok & Hnum & Hq & Hf & Hc).
  unfold execute in He. rewrite Hx in He. simpl in He.
  destruct (iterate_active_drivers_prepare driver_prepare (fc_pipelines fc) (driver_calls (env s1)))
    as [[u|e'] calls].
  - discriminate.
  - injection He as _ <-.
    unfold _fail_cleanup, release_token, fragment_registered. simpl. rewrite Hx. simpl.
    rewrite Hq. simpl. rewrite Htok. simpl. repeat (rewrite lookup_insert_eq; simpl).
    rewrite Hfid, lookup_delete_eq.
    repeat split; try reflexivity; lia.
Qed.

End Lifecycle.

End ExecutorMoreProofs.

Import Executor Examples.

(** A fragment of 2 lanes under a budget of 8: building its pipelines
    fails, and the failed [prepare] leaves the limiter at 0 lanes and the
    fragment unregistered. *)
Lemma prepare_failure_restores_registry_and_lanes_witness :
  exists s', prepare 300 (fun _ => Err InternalError) (fun _ => Ok tt) (fun _ => None)
               (fun _ => []) (fun p => p) ex_request
               {| env := ex_env 0 8 ∅; executor := new_executor |} = (Err InternalError, s') /\
  num_total_drivers (env s') = 0.
Proof.
  eexists. split; [reflexivity|].
  exact (proj1 (proj2 (ExecutorMoreProofs.prepare_failure_restores_registry_and_lanes
    300 (fun _ => Err InternalError) (fun _ => Ok tt) (fun _ => None) (fun _ => []) (fun p => p)
    ex_request {| env := ex_env 0 8 ∅; executor := new_executor |} InternalError _
    eq_refl eq_refl))).
Defined.

(** A fragment of one pipeline of 2 lanes prepares under a budget of 8;
    its first driver fails to prepare, and after [execute] the fragment is
    unregistered and the limiter back at 0 lanes. *)
Lemma prepare_then_failed_execute_unregisters_witness :
  let s0 := {| env := ex_env 0 8 ∅; executor := new_executor |} in
  let p := prepare 300 (fun _ => Ok [ex_pipeline 2]) (fun _ => Ok tt) (fun _ => None)
             (fun _ => []) (fun p => p) ex_request s0 in
  let x := execute (fun _ => Err InternalError) (snd p) in
  p = (Ok tt, snd p) /\ x = (Err InternalError, snd x) /\
  fragment_registered (env (snd x)) (1, 1) (1, 2) = false /\ num_total_drivers (env (snd x)) = 0.
Proof.
  intros s0 p x.
  assert (Hp : p = (Ok tt, snd p)) by (subst p; vm_compute; reflexivity).
  assert (Hx : x = (Err InternalError, snd x)) by (subst x p; vm_compute; reflexivity).
  split; [exact Hp|]. split; [exact Hx|].
  destruct (ExecutorMoreProofs.prepare_then_failed_execute_unregisters
    300 (fun _ => Ok [ex_pipeline 2]) (fun _ => Ok tt) (fun _ => None) (fun _ => []) (fun p => p)
    (fun _ => Err InternalError) ex_request s0 (snd p) InternalError (snd x) eq_refl Hp Hx)
    as (Hr & Hn & _).
  split; [exact Hr | exact Hn].
Defined.
